(** * CPU scheduler simulator: the scheduling engine of [src/App.tsx]

    A shallow embedding of [SchedulingAlgorithms.selectNext],
    [executeSimulationStep], the reducer, the process management, the
    statistics and the auto-run effect of the simulator, followed by the
    properties of the engine.

    Modelling conventions.
    - Every numeric field of the source (ids, ticks, burst and remaining
      times, priorities) holds an integer read with [parseInt]; it is a [Z]
      here.  The response ratio of HRN is a quotient of two such integers,
      a JS number: it is a binary64 [float], divided, subtracted and
      compared by the IEEE 754 operations of [PrimFloat].  The averages of
      the statistics panel are quotients in [Q].
    - [Array.prototype.sort] is stable; it is modelled by a stable insertion
      sort that takes the sign test [comparator a b <= 0] of the source's
      comparator.  For a consistent comparator every conforming sort returns
      this very list.
    - [null] and [undefined] are [None]. *)

From Stdlib Require Import PrimFloat Uint63.
From Stdlib Require Import ZArith QArith List String Bool Lia.
From Stdlib Require Import DecimalString DecimalPos DecimalZ Permutation.
Import ListNotations.
Open Scope string_scope.
Open Scope list_scope.
Open Scope Z_scope.

(** ** Data model *)

Record Process : Type := mkProcess {
  id : Z;
  name : string;
  arrival : Z;
  burst : Z;
  priority : Z;
  remaining : Z;
  color : string
}.

(** [end] is a keyword: the field is [end_].  The entry's [color] is
    [barColor], as [color] names the field of [Process]. *)
Record GanttEntry : Type := mkGanttEntry {
  process : string;
  start : Z;
  end_ : Z;
  barColor : string
}.

Record SimulationState : Type := mkState {
  currentTime : Z;
  ganttChart : list GanttEntry;
  currentProcess : option Process;
  readyQueue : list Process;
  completedProcesses : list Z;
  quantumRemaining : Z;
  isRunning : bool
}.

(** The state of [useReducer]'s initial value and of the [RESET] action. *)
Definition initialState : SimulationState :=
  mkState 0 [] None [] [] 0 false.

(** ** Array helpers *)

Section Sort.
Context {A : Type}.
(** [before a b] is the test [comparator(a, b) <= 0]. *)
Variable before : A -> A -> bool.

Fixpoint insert (x : A) (l : list A) : list A :=
  match l with
  | [] => [x]
  | y :: l' => if before x y then x :: l else y :: insert x l'
  end.

Fixpoint sort (l : list A) : list A :=
  match l with
  | [] => []
  | x :: l' => insert x (sort l')
  end.

(** The head of the sorted list, computed directly: scanning from the
    right, an element takes the lead when it is [before] the leader. *)
Fixpoint leader (l : list A) : option A :=
  match l with
  | [] => None
  | x :: l' =>
    match leader l' with
    | None => Some x
    | Some h => if before x h then Some x else Some h
    end
  end.
End Sort.

(** [xs.includes(i)] on an array of numbers. *)
Definition includes (xs : list Z) (i : Z) : bool :=
  existsb (fun x => x =? i) xs.

(** [processes.find((p) => p.id === i)]. *)
Definition findById (processes : list Process) (i : Z) : option Process :=
  find (fun p => id p =? i) processes.

(** [x?.remaining === 0] and [x?.remaining > 0]: both are false on
    [undefined]. *)
Definition remainingIsZero (x : option Process) : bool :=
  match x with
  | Some p => remaining p =? 0
  | None => false
  end.

Definition remainingIsPositive (x : option Process) : bool :=
  match x with
  | Some p => 0 <? remaining p
  | None => false
  end.

(** [arr[arr.length - 1]]: [undefined] on the empty array. *)
Definition lastEntry (g : list GanttEntry) : option GanttEntry :=
  nth_error g (List.length g - 1)%nat.

(** [arr[n] = x] for an index inside the array, the only use of the source
    (a JS array would grow on an index past its end; the source writes only
    at the index of an entry it has just read). *)
Fixpoint replaceAt {A : Type} (n : nat) (x : A) (l : list A) : list A :=
  match l, n with
  | [], _ => []
  | _ :: l', O => x :: l'
  | y :: l', S n' => y :: replaceAt n' x l'
  end.

(** ** Algorithm selector *)

Definition fcfsCompare (a b : Process) : Z :=
  if arrival a =? arrival b then id a - id b else arrival a - arrival b.

Definition sjfCompare (a b : Process) : Z :=
  if burst a =? burst b then arrival a - arrival b else burst a - burst b.

Definition srtCompare (a b : Process) : Z :=
  if remaining a =? remaining b
  then arrival a - arrival b
  else remaining a - remaining b.

Definition priorityCompare (a b : Process) : Z :=
  if priority a =? priority b
  then arrival a - arrival b
  else priority a - priority b.

(** An integer as a JS number.  The conversion is exact on the safe
    integers, those of absolute value below 2^53. *)
Definition toNumber (z : Z) : float :=
  if z <? 0
  then PrimFloat.opp (PrimFloat.of_uint63 (Uint63.of_Z (- z)))
  else PrimFloat.of_uint63 (Uint63.of_Z z).

(** [(waiting + p.burst) / p.burst] with
    [waiting = Math.max(0, currentTime - p.arrival)]: a division of
    doubles, which is [Infinity] or [NaN] on a burst of 0. *)
Definition responseRatio (now : Z) (p : Process) : float :=
  PrimFloat.div (toNumber (Z.max 0 (now - arrival p) + burst p))
                (toNumber (burst p)).

(** The literal [0.001], that is the double nearest to 1/1000. *)
Definition tolerance : float := 0x1.0624dd2f1a9fcp-10%float.

(** The tie test [Math.abs(a.responseRatio - b.responseRatio) < 0.001]. *)
Definition ratioTie (ra rb : float) : bool :=
  PrimFloat.ltb (PrimFloat.abs (PrimFloat.sub ra rb)) tolerance.

(** The sign of a number, which is all that [sort] reads of a comparator's
    result; [NaN] counts as 0 there. *)
Definition signOf (x : float) : Z :=
  if PrimFloat.ltb 0 x then 1 else if PrimFloat.ltb x 0 then -1 else 0.

(** The HRN comparator, on the objects [{ ...p, responseRatio }]: the
    difference of the arrivals on a tie, else the sign of
    [b.responseRatio - a.responseRatio]. *)
Definition hrnCompare (a b : Process * float) : Z :=
  if ratioTie (snd a) (snd b)
  then arrival (fst a) - arrival (fst b)
  else signOf (PrimFloat.sub (snd b) (snd a)).

Definition sortBy (cmp : Process -> Process -> Z) : list Process -> list Process :=
  sort (fun a b => cmp a b <=? 0).

Definition sortByRatio : list (Process * float) -> list (Process * float) :=
  sort (fun a b => hrnCompare a b <=? 0).

(** [SchedulingAlgorithms.selectNext].  Under HRN the source returns the
    copy [{ ...p, responseRatio }]; the extra property is never read again,
    so the process itself is returned. *)
Definition selectNext (processes : list Process) (now : Z)
    (algorithm : string) : option Process :=
  match processes with
  | [] => None
  | _ =>
    let sortedProcesses := processes in
    if (algorithm =? "FCFS")%string
    then hd_error (sortBy fcfsCompare sortedProcesses)
    else if (algorithm =? "SJF")%string
    then hd_error (sortBy sjfCompare sortedProcesses)
    else if (algorithm =? "SRT")%string
    then hd_error (sortBy srtCompare sortedProcesses)
    else if (algorithm =? "Priority")%string
    then hd_error (sortBy priorityCompare sortedProcesses)
    else if (algorithm =? "HRN")%string then
      let processesWithRatio :=
        map (fun p => (p, responseRatio now p)) sortedProcesses in
      option_map fst (hd_error (sortByRatio processesWithRatio))
    else if (algorithm =? "RR")%string then hd_error sortedProcesses
    else hd_error sortedProcesses
  end.

(** ** Step simulator *)

(** The [forEach] over the arrived processes: a snapshot is pushed unless
    the queue built so far already holds its id. *)
Definition enqueueArrived (queue arrived : list Process) : list Process :=
  fold_left
    (fun q p =>
       match find (fun rp => id rp =? id p) q with
       | Some _ => q
       | None => q ++ [p]
       end)
    arrived queue.

Definition arrivedProcesses (state : SimulationState)
    (processes : list Process) : list Process :=
  filter
    (fun p =>
       (arrival p =? currentTime state)
       && negb (includes (completedProcesses state) (id p))
       && (0 <? remaining p))
    processes.

Definition withoutId (i : Z) (queue : list Process) : list Process :=
  filter (fun p => negb (id p =? i)) queue.

(** The working variables of [executeSimulationStep]. *)
Record Vars : Type := mkVars {
  vCurrent : option Process;
  vQueue : list Process;
  vCompleted : list Z;
  vQuantum : Z
}.

(** Completion check of the current process. *)
Definition retire (processes : list Process) (v : Vars) : Vars :=
  match vCurrent v with
  | Some c =>
    if remainingIsZero (findById processes (id c))
    then mkVars None (withoutId (id c) (vQueue v))
                (vCompleted v ++ [id c]) 0
    else v
  | None => v
  end.

(** Quantum expiry of RR.  The test reads [quantumRemaining] of the prior
    state, not the working copy. *)
Definition expire (state : SimulationState) (processes : list Process)
    (algorithm : string) (v : Vars) : Vars :=
  match vCurrent v with
  | Some c =>
    if ((algorithm =? "RR")%string
        && (quantumRemaining state =? 0)
        && (1 <? Z.of_nat (List.length (vQueue v))))
    then
      let q := withoutId (id c) (vQueue v) in
      let q' :=
        match findById processes (id c) with
        | Some ps => if 0 <? remaining ps then q ++ [ps] else q
        | None => q
        end in
      mkVars None q' (vCompleted v) (vQuantum v)
    else v
  | None => v
  end.

Definition availableProcesses (processes : list Process) (v : Vars)
    : list Process :=
  filter
    (fun p =>
       remainingIsPositive (findById processes (id p))
       && negb (includes (vCompleted v) (id p)))
    (vQueue v).

Definition preemptive (algorithm : string) : bool :=
  ((algorithm =? "SRT") || (algorithm =? "RR"))%string.

(** Selection of the next process. *)
Definition choose (state : SimulationState) (processes : list Process)
    (algorithm : string) (quantum : Z) (v : Vars) : Vars :=
  let enter :=
    match vCurrent v with
    | None => true
    | Some _ => preemptive algorithm
    end in
  if enter then
    match availableProcesses processes v with
    | [] => v
    | available =>
      let nextSelected := selectNext available (currentTime state) algorithm in
      let keep :=
        match vCurrent v, nextSelected with
        | Some c, Some n =>
          negb (id c =? id n)
          && negb (algorithm =? "SRT")%string
          && negb (algorithm =? "RR")%string
        | _, _ => false
        end in
      if keep then v
      else
        mkVars nextSelected (vQueue v) (vCompleted v)
          (match nextSelected with
           | Some _ => if (algorithm =? "RR")%string then quantum else vQuantum v
           | None => vQuantum v
           end)
    end
  else v.

(** One tick of the occupant [label] on the chart: the last entry is
    extended when it carries the same label, a new entry is pushed
    otherwise. *)
Definition occupy (label colour : string) (now : Z) (g : list GanttEntry)
    : list GanttEntry :=
  match lastEntry g with
  | Some e =>
    if (process e =? label)%string
    then replaceAt (List.length g - 1)%nat
           (mkGanttEntry (process e) (start e) (now + 1) (barColor e)) g
    else g ++ [mkGanttEntry label now (now + 1) colour]
  | None => g ++ [mkGanttEntry label now (now + 1) colour]
  end.

Definition hasUnArrived (state : SimulationState) (processes : list Process)
    : bool :=
  existsb (fun p => (currentTime state <? arrival p) && (0 <? remaining p))
    processes.

Definition executeSimulationStep (state : SimulationState)
    (processes : list Process) (algorithm : string) (quantum : Z)
    : SimulationState :=
  if forallb (fun p => remaining p =? 0) processes then
    mkState (currentTime state) (ganttChart state) (currentProcess state)
      (readyQueue state) (completedProcesses state) (quantumRemaining state)
      false
  else
    let newReadyQueue :=
      enqueueArrived (readyQueue state) (arrivedProcesses state processes) in
    let v0 :=
      mkVars (currentProcess state) newReadyQueue (completedProcesses state)
        (quantumRemaining state) in
    let v1 := retire processes v0 in
    let v2 := expire state processes algorithm v1 in
    let v3 := choose state processes algorithm quantum v2 in
    let now := currentTime state in
    let '(newGanttChart, newQuantumRemaining) :=
      match vCurrent v3 with
      | Some c =>
        (occupy (name c) (color c) now (ganttChart state),
         if ((algorithm =? "RR")%string && (0 <? vQuantum v3))
         then vQuantum v3 - 1 else vQuantum v3)
      | None =>
        (if hasUnArrived state processes
         then occupy "IDLE" "#E5E7EB" now (ganttChart state)
         else ganttChart state,
         vQuantum v3)
      end in
    mkState (now + 1) newGanttChart (vCurrent v3) (vQueue v3)
      (vCompleted v3) newQuantumRemaining (isRunning state).

(** ** Driver *)

(** The update of the process list that the auto-run timer queues with
    [setProcesses]: the remaining time of the running process drops by one,
    never below zero. *)
Definition decrementRunning (state : SimulationState)
    (processes : list Process) : list Process :=
  match currentProcess state with
  | Some c =>
    map
      (fun p =>
         if id p =? id c
         then mkProcess (id p) (name p) (arrival p) (burst p) (priority p)
                (Z.max 0 (remaining p - 1)) (color p)
         else p)
      processes
  | None => processes
  end.

Definition World : Type := (list Process * SimulationState)%type.

(** The driver protocol of C1 to C4: the decrement, then the step on the
    list that the decrement has updated.  The timer of the application
    dispatches the step with the list from before the decrement; that
    order is [autoRunTick]. *)
Definition driverStep (algorithm : string) (quantum : Z) (w : World) : World :=
  let processes := decrementRunning (snd w) (fst w) in
  (processes, executeSimulationStep (snd w) processes algorithm quantum).

Definition allCompleted (processes : list Process) : bool :=
  forallb (fun p => remaining p =? 0) processes.

(** The driver repeated until every process is complete; [None] when the
    fuel runs out first. *)
Fixpoint runToCompletion (fuel : nat) (algorithm : string) (quantum : Z)
    (w : World) : option World :=
  if allCompleted (fst w) then Some w
  else
    match fuel with
    | O => None
    | S fuel' =>
      runToCompletion fuel' algorithm quantum (driverStep algorithm quantum w)
    end.

Fixpoint iterDriver (n : nat) (algorithm : string) (quantum : Z) (w : World)
    : World :=
  match n with
  | O => w
  | S n' => driverStep algorithm quantum (iterDriver n' algorithm quantum w)
  end.

(** States reachable from the initial state by the driver protocol. *)
Inductive reachable (processes0 : list Process) (algorithm : string)
    (quantum : Z) : World -> Prop :=
| reach_init : reachable processes0 algorithm quantum (processes0, initialState)
| reach_step : forall w,
    reachable processes0 algorithm quantum w ->
    reachable processes0 algorithm quantum (driverStep algorithm quantum w).

(** The chart as triples (label, start, end), colours left out. *)
Definition timelineOf (w : World) : list (string * Z * Z) :=
  map (fun e => (process e, start e, end_ e)) (ganttChart (snd w)).

(** The ratios of [a] and [b] are a tie: the tie test of the comparator
    holds of them. *)
Definition tied (now : Z) (a b : Process) : Prop :=
  ratioTie (responseRatio now a) (responseRatio now b) = true.

(** The double [x - y] is positive. *)
Definition exceeds (x y : float) : Prop :=
  PrimFloat.ltb 0 (PrimFloat.sub x y) = true.

(** [c] goes in front of [r] in the HRN order: the two do not tie and the
    ratio of [c] is the larger one, or they tie and [c] arrived earlier. *)
Definition outranks (now : Z) (c r : Process) : Prop :=
  (~ tied now r c /\ exceeds (responseRatio now c) (responseRatio now r))
  \/ (tied now r c /\ arrival c < arrival r).

Definition withRatio (now : Z) (p : Process) : Process * float :=
  (p, responseRatio now p).

Definition hrnBefore (a b : Process * float) : bool := hrnCompare a b <=? 0.

(** The comparator of HRN is consistent on the candidates, as [sort]
    expects of a comparator: swapping the arguments swaps the sign of the
    result, and "not after" is transitive.  The tolerance can break the
    second half. *)
Definition hrnConsistent (l : list Process) (now : Z) : Prop :=
  (forall a b, In a l -> In b l ->
     Z.sgn (hrnCompare (withRatio now a) (withRatio now b))
     = - Z.sgn (hrnCompare (withRatio now b) (withRatio now a)))
  /\ (forall a b c, In a l -> In b l -> In c l ->
        hrnBefore (withRatio now a) (withRatio now b) = true ->
        hrnBefore (withRatio now b) (withRatio now c) = true ->
        hrnBefore (withRatio now a) (withRatio now c) = true).

(** The integers that enter the ratio of a candidate are safe integers, on
    which the arithmetic of doubles is that of the integers. *)
Definition safeInteger (z : Z) : Prop := - 2 ^ 53 < z < 2 ^ 53.

Definition safeCandidates (l : list Process) (now : Z) : Prop :=
  forall p, In p l ->
    safeInteger (now - arrival p) /\ safeInteger (burst p)
    /\ safeInteger (Z.max 0 (now - arrival p) + burst p).

(** ** Scenarios *)

Definition job (i : Z) (label : string) (a b : Z) (colour : string) : Process :=
  mkProcess i label a b 1 b colour.

(** Two processes that arrive together with the same burst. *)
Definition rrProcesses : list Process :=
  [job 1 "P1" 0 5 "#FF6B6B"; job 2 "P2" 0 5 "#4ECDC4"].

(** A long process and a short one that arrives while the first runs. *)
Definition srtProcesses : list Process :=
  [job 1 "P1" 0 5 "#FF6B6B"; job 2 "P2" 2 2 "#4ECDC4"].

(** Equal burst and arrival, ids in descending order. *)
Definition twins : list Process :=
  [job 2 "P2" 0 3 "#4ECDC4"; job 1 "P1" 0 3 "#FF6B6B"].

(** Three candidates at time 20, in the order of their arrival, with
    ratios 1.0010, 1.0018 and 1.0026: neighbours in ratio tie, the extremes
    do not. *)
Definition hrnSlow : Process := job 1 "P1" 0 20000 "#FF6B6B".
Definition hrnMiddle : Process := job 2 "P2" 2 10000 "#4ECDC4".
Definition hrnFast : Process := job 3 "P3" 7 5000 "#45B7D1".
Definition hrnChain : list Process := [hrnSlow; hrnMiddle; hrnFast].

(** A process that arrives at tick 5, and one that arrived at tick 0. *)
Definition lateJob : Process := job 1 "P1" 5 3 "#FF6B6B".
Definition earlyJob : Process := job 2 "P2" 0 3 "#4ECDC4".

(** Two candidates whose ratios, 201/200 and 502/500, are 0.001 apart as
    fractions and less than that as doubles. *)
Definition hrnNear : Process := job 1 "P1" 9 200 "#FF6B6B".
Definition hrnEarly : Process := job 2 "P2" 8 500 "#4ECDC4".

(** ** The claims about the selector, as stated *)

Definition unknownAlgorithm (algorithm : string) : Prop :=
  algorithm <> "FCFS" /\ algorithm <> "SJF" /\ algorithm <> "SRT"
  /\ algorithm <> "Priority" /\ algorithm <> "HRN" /\ algorithm <> "RR".

(** [r] is the candidate with the smallest id. *)
Definition smallestId (l : list Process) (r : Process) : Prop :=
  In r l /\ forall c, In c l -> id r <= id c.

(** [r] is first for (burst, arrival, id), each ascending. *)
Definition shortestThenEarliestThenId (l : list Process) (r : Process) : Prop :=
  In r l /\
  forall c, In c l ->
    burst r <= burst c
    /\ (burst c = burst r -> arrival r <= arrival c)
    /\ (burst c = burst r -> arrival c = arrival r -> id r <= id c).

(** [r] is first in the HRN order: no candidate goes in front of it. *)
Definition hrnBest (l : list Process) (now : Z) (r : Process) : Prop :=
  In r l /\ forall c, In c l -> ~ outranks now c r.

(** ** Predicates of the properties *)

Definition ids (l : list Process) : list Z := map id l.

Definition varsOf (state : SimulationState) : Vars :=
  mkVars (currentProcess state) (readyQueue state) (completedProcesses state)
    (quantumRemaining state).

(** The working variables after the arrivals are admitted. *)
Definition startVars (state : SimulationState) (processes : list Process) : Vars :=
  mkVars (currentProcess state)
    (enqueueArrived (readyQueue state) (arrivedProcesses state processes))
    (completedProcesses state) (quantumRemaining state).

(** The working variables after the selection. *)
Definition stepVars (state : SimulationState) (processes : list Process)
    (algorithm : string) (quantum : Z) : Vars :=
  choose state processes algorithm quantum
    (expire state processes algorithm
       (retire processes (startVars state processes))).

(** Every id of the queue and the id of the current process satisfy [Q]. *)
Definition Within (Q : Z -> Prop) (v : Vars) : Prop :=
  (forall x, In x (vQueue v) -> Q (id x))
  /\ (forall c, vCurrent v = Some c -> Q (id c)).

(** The roles as C1 states them: the current process is not in the ready
    queue, and a completed id is neither queued nor current. *)
Definition rolesDisjoint (state : SimulationState) : Prop :=
  (forall c, currentProcess state = Some c ->
     ~ In (id c) (ids (readyQueue state)))
  /\ (forall i, In i (completedProcesses state) ->
        ~ In i (ids (readyQueue state))
        /\ forall c, currentProcess state = Some c -> id c <> i).

(** What the step keeps: completed ids are neither queued nor current, no
    id occurs twice in the queue or in the completed list, and the current
    process stays in the queue while it runs. *)
Definition Apart (v : Vars) : Prop :=
  (forall i, In i (vCompleted v) -> ~ In i (ids (vQueue v)))
  /\ (forall c, vCurrent v = Some c -> ~ In (id c) (vCompleted v))
  /\ NoDup (ids (vQueue v))
  /\ NoDup (vCompleted v)
  /\ (forall c, vCurrent v = Some c -> In (id c) (ids (vQueue v))).

(** [covers lo g hi]: the entries of [g], in order, are non-empty intervals
    that start at [lo], each one starting where the previous one ends, and
    end at [hi]. *)
Fixpoint covers (lo : Z) (g : list GanttEntry) (hi : Z) : Prop :=
  match g with
  | [] => lo = hi
  | e :: g' => start e = lo /\ lo < end_ e /\ covers (end_ e) g' hi
  end.

(** The tick [x] lies in the interval of [e]. *)
Definition inEntry (e : GanttEntry) (x : Z) : Prop := start e <= x < end_ e.

(** The intervals of the chart cover exactly the ticks of [0, now):
    their union is that range, and no tick lies in two entries. *)
Definition exactCover (g : list GanttEntry) (now : Z) : Prop :=
  (forall x, 0 <= x < now <-> exists e, In e g /\ inEntry e x)
  /\ (forall i j ei ej x,
        nth_error g i = Some ei -> nth_error g j = Some ej ->
        inEntry ei x -> inEntry ej x -> i = j).

(** [R] holds of every two consecutive entries. *)
Fixpoint adjacent (R : GanttEntry -> GanttEntry -> Prop) (g : list GanttEntry)
    : Prop :=
  match g with
  | [] => True
  | e1 :: g' =>
    match g' with
    | [] => True
    | e2 :: _ => R e1 e2
    end /\ adjacent R g'
  end.

Definition startsSorted : list GanttEntry -> Prop :=
  adjacent (fun a b => start a <= start b).

Definition labelsAlternate : list GanttEntry -> Prop :=
  adjacent (fun a b => process a <> process b).

(** The process sets of the data model: ids are unique, arrival and
    remaining times are not negative. *)
Definition wellFormed (processes : list Process) : Prop :=
  NoDup (ids processes)
  /\ forall p, In p processes -> 0 <= arrival p /\ 0 <= remaining p.

(** With respect to the process set: a completed process has nothing left
    to run, and a process with time left that has arrived by [now] is in
    the queue. *)
Definition Fed (processes : list Process) (now : Z) (v : Vars) : Prop :=
  (forall p, In p processes -> In (id p) (vCompleted v) -> remaining p = 0)
  /\ (forall p, In p processes -> 0 < remaining p -> arrival p <= now ->
        In (id p) (ids (vQueue v))).

(** What holds of the process set and the state along a run. *)
Definition Sound (w : World) : Prop :=
  wellFormed (fst w)
  /\ Fed (fst w) (currentTime (snd w) - 1) (varsOf (snd w))
  /\ covers 0 (ganttChart (snd w)) (currentTime (snd w))
  /\ labelsAlternate (ganttChart (snd w)).

(** One tick on the chart: nothing, a new entry for the tick, or the last
    entry one tick longer; the entries before the last are untouched. *)
Definition tickShape (now : Z) (g g' : list GanttEntry) : Prop :=
  g' = g
  \/ (exists label colour, g' = g ++ [mkGanttEntry label now (now + 1) colour])
  \/ (exists init e,
        g = init ++ [e]
        /\ g' = init ++ [mkGanttEntry (process e) (start e) (end_ e + 1)
                           (barColor e)]).

(** What a step does to the chart: nothing, a new entry for the tick, or
    the end of the last entry set to the end of the tick, which is later
    than where that entry ended; the entries before the last are
    untouched. *)
Definition stepShape (now : Z) (g g' : list GanttEntry) : Prop :=
  g' = g
  \/ (exists label colour, g' = g ++ [mkGanttEntry label now (now + 1) colour])
  \/ (exists init e,
        g = init ++ [e]
        /\ end_ e <= now
        /\ g' = init ++ [mkGanttEntry (process e) (start e) (now + 1)
                           (barColor e)]).

(** A state in which the chart no longer grows: the processor is free, no
    queued process can run, and no process with time left is still to
    arrive.  Such a state arises only from process sets outside the data
    model, and the driver never leaves it. *)
Definition Frozen (w : World) : Prop :=
  currentProcess (snd w) = None
  /\ availableProcesses (fst w) (varsOf (snd w)) = []
  /\ forall p, In p (fst w) -> 0 < remaining p ->
       arrival p < currentTime (snd w).

(** What holds of the chart along every run, whatever the process set. *)
Definition Steady (w : World) : Prop :=
  startsSorted (ganttChart (snd w))
  /\ labelsAlternate (ganttChart (snd w))
  /\ (covers 0 (ganttChart (snd w)) (currentTime (snd w)) \/ Frozen w).

(** ** Reducer *)

(** [SimulationAction]: the [STEP] payload is spread over three arguments. *)
Inductive SimulationAction : Type :=
| STEP (processes : list Process) (algorithm : string) (quantum : Z)
| RESET (processes : list Process)
| START
| PAUSE
| SET_TIME (payload : Z).

(** [simulationReducer].  [SET_TIME] has no case of its own and falls to
    [default]. *)
Definition simulationReducer (state : SimulationState)
    (action : SimulationAction) : SimulationState :=
  match action with
  | RESET _ => mkState 0 [] None [] [] 0 false
  | START =>
    mkState (currentTime state) (ganttChart state) (currentProcess state)
      (readyQueue state) (completedProcesses state) (quantumRemaining state)
      true
  | PAUSE =>
    mkState (currentTime state) (ganttChart state) (currentProcess state)
      (readyQueue state) (completedProcesses state) (quantumRemaining state)
      false
  | STEP processes algorithm quantum =>
    executeSimulationStep state processes algorithm quantum
  | SET_TIME _ => state
  end.

(** The reducer over a list of dispatched actions, oldest first. *)
Definition dispatchAll (state : SimulationState)
    (actions : list SimulationAction) : SimulationState :=
  fold_left simulationReducer actions state.

(** The actions other than [START] and [PAUSE]. *)
Definition schedules (action : SimulationAction) : bool :=
  match action with
  | START | PAUSE => false
  | _ => true
  end.

(** Two states that agree on every field but the running flag. *)
Definition sameSchedule (s1 s2 : SimulationState) : Prop :=
  currentTime s1 = currentTime s2
  /\ ganttChart s1 = ganttChart s2
  /\ currentProcess s1 = currentProcess s2
  /\ readyQueue s1 = readyQueue s2
  /\ completedProcesses s1 = completedProcesses s2
  /\ quantumRemaining s1 = quantumRemaining s2.

(** [spaced lo g hi]: the entries of [g], in order, are non-empty intervals
    within [lo, hi], none starting before the previous one ends. *)
Fixpoint spaced (lo : Z) (g : list GanttEntry) (hi : Z) : Prop :=
  match g with
  | [] => lo <= hi
  | e :: g' => lo <= start e /\ start e < end_ e /\ spaced (end_ e) g' hi
  end.

(** ** Process management *)

(** The seed of [useState<Process[]>]. *)
Definition defaultProcesses : list Process :=
  [mkProcess 1 "P1" 0 5 3 5 "#FF6B6B";
   mkProcess 2 "P2" 2 3 1 3 "#4ECDC4";
   mkProcess 3 "P3" 4 8 2 8 "#45B7D1";
   mkProcess 4 "P4" 6 2 4 2 "#96CEB4"].

Definition colors : list string :=
  ["#FF6B6B"; "#4ECDC4"; "#45B7D1"; "#96CEB4"; "#FECA57"; "#FF9FF3";
   "#54A0FF"].

(** [Math.max(...processes.map((p) => p.id), 0)]. *)
Definition maxId (processes : list Process) : Z :=
  fold_right Z.max 0 (map id processes).

(** The template [`P${newId}`], for the ids the source builds (at least 1),
    which print as their decimal digits. *)
Definition processName (newId : Z) : string :=
  "P" ++ NilZero.string_of_int (Z.to_int newId).

(** [addProcess].  [%] is the remainder of JS; the index it gives is within
    [colors], as [newId] is at least 1. *)
Definition addProcess (processes : list Process) : list Process :=
  let newId := maxId processes + 1 in
  let newProcess :=
    mkProcess newId (processName newId) 0 3 1 3
      (nth (Z.to_nat (Z.rem newId (Z.of_nat (List.length colors)))) colors "") in
  processes ++ [newProcess].

(** [deleteProcess]. *)
Definition deleteProcess (i : Z) (processes : list Process) : list Process :=
  filter (fun p => negb (id p =? i)) processes.

(** The keys of [Process] that hold a number. *)
Inductive Field : Type :=
| idField | arrivalField | burstField | priorityField | remainingField.

(** The object [{ ...p, [field]: numValue, remaining: ... }]: the explicit
    [remaining] key comes last and wins over [field]. *)
Definition withField (field : Field) (numValue : Z) (p : Process) : Process :=
  mkProcess
    (match field with idField => numValue | _ => id p end)
    (name p)
    (match field with arrivalField => numValue | _ => arrival p end)
    (match field with burstField => numValue | _ => burst p end)
    (match field with priorityField => numValue | _ => priority p end)
    (match field with burstField => numValue | _ => remaining p end)
    (color p).

(** [updateProcess], after the input is read: [numValue] stands for
    [parseInt(value) || 0]. *)
Definition updateProcess (i : Z) (field : Field) (numValue : Z)
    (processes : list Process) : list Process :=
  map (fun p => if id p =? i then withField field numValue p else p) processes.

(** The update of the process list made by [resetSimulation]. *)
Definition restoreRemaining (processes : list Process) : list Process :=
  map
    (fun p =>
       mkProcess (id p) (name p) (arrival p) (burst p) (priority p) (burst p)
         (color p))
    processes.

(** [resetSimulation]: the [RESET] action and the update of the list. *)
Definition resetSimulation (w : World) : World :=
  (restoreRemaining (fst w), simulationReducer (snd w) (RESET (fst w))).

(** The edits of the process list the component makes: the add and delete
    buttons and the three number inputs of a table row. *)
Inductive managed : list Process -> Prop :=
| managed_seed : managed defaultProcesses
| managed_add : forall ps, managed ps -> managed (addProcess ps)
| managed_delete : forall i ps, managed ps -> managed (deleteProcess i ps)
| managed_arrival : forall i n ps,
    managed ps -> managed (updateProcess i arrivalField n ps)
| managed_burst : forall i n ps,
    managed ps -> managed (updateProcess i burstField n ps)
| managed_priority : forall i n ps,
    managed ps -> managed (updateProcess i priorityField n ps).

(** ** Statistics *)

Record StatRow : Type := mkStatRow {
  statName : string;
  statArrival : Z;
  statBurst : Z;
  completion : Z;
  turnaround : Z;
  waiting : Z
}.

Definition processEntries (g : list GanttEntry) (p : Process)
    : list GanttEntry :=
  filter (fun e => (process e =? name p)%string) g.

(** [Math.max(...xs)] on a non-empty array, and 0 where the source takes 0
    for the empty one. *)
Definition completionOf (g : list GanttEntry) (p : Process) : Z :=
  match map end_ (processEntries g p) with
  | [] => 0
  | x :: xs => fold_left Z.max xs x
  end.

Definition statRow (g : list GanttEntry) (p : Process) : StatRow :=
  let completion := completionOf g p in
  let turnaround := completion - arrival p in
  let waiting := turnaround - burst p in
  mkStatRow (name p) (arrival p) (burst p) completion turnaround waiting.

Definition sumOf (xs : list Z) : Z := fold_left Z.add xs 0.

(** The value of the [statistics] memo.  The averages are quotients and
    live in [Q]. *)
Definition statistics (state : SimulationState) (processes : list Process)
    : option (list StatRow * Q * Q) :=
  match ganttChart state with
  | [] => None
  | _ =>
    let stats := map (statRow (ganttChart state)) processes in
    let avgTurnaround :=
      (inject_Z (sumOf (map turnaround stats))
       / inject_Z (Z.of_nat (List.length stats)))%Q in
    let avgWaiting :=
      (inject_Z (sumOf (map waiting stats))
       / inject_Z (Z.of_nat (List.length stats)))%Q in
    Some (stats, avgTurnaround, avgWaiting)
  end.

(** ** Measures of a run *)

Definition totalRemaining (processes : list Process) : Z :=
  fold_right Z.add 0 (map remaining processes).





(** Every entry of the queue and the current process satisfy [Q]. *)
Definition Every (Q : Process -> Prop) (v : Vars) : Prop :=
  (forall x, In x (vQueue v) -> Q x)
  /\ (forall c, vCurrent v = Some c -> Q c).


(** ** Status column *)

(** The four labels of the status cell of a table row. *)
Inductive Status : Type :=
| Completed   (* '완료' *)
| Executing   (* '실행중' *)
| Queued      (* '대기' *)
| NotArrived. (* '미도착' *)

(** The chain of conditionals that picks the label of [process]. *)
Definition statusOf (state : SimulationState) (p : Process) : Status :=
  if includes (completedProcesses state) (id p) then Completed
  else if match currentProcess state with
          | Some c => id c =? id p
          | None => false
          end then Executing
  else match find (fun q => id q =? id p) (readyQueue state) with
       | Some _ => Queued
       | None => NotArrived
       end.

(** With respect to the process list [processes0] of the start: what is
    queued or current is an object of that list, and a process of the
    present list is one of that list too unless its id is queued or
    completed. *)
Definition Snapshots (processes0 : list Process) (w : World) : Prop :=
  Every (fun x => In x processes0) (varsOf (snd w))
  /\ forall p, In p (fst w) ->
       In p processes0
       \/ In (id p) (ids (readyQueue (snd w)))
       \/ In (id p) (completedProcesses (snd w)).

(** ** The auto-run effect *)

(** One firing of the timer that the auto-run effect sets while [isRunning]
    holds.  The callback reads [processes], [simulationState.currentProcess]
    and [executeStep] as the render that set the timer left them.  When
    every process of that list is complete it dispatches [PAUSE].  Otherwise
    it queues the decrement of the running process and calls [executeStep],
    which dispatches [STEP] with the list of that render, the list before
    the decrement.  Both updates are in place at the next render, which
    sets the timer of the next firing. *)
Definition autoRunTick (algorithm : string) (quantum : Z) (w : World) : World :=
  let processes := fst w in
  let simulationState := snd w in
  if negb (isRunning simulationState) then w
  else if allCompleted processes
  then (processes, simulationReducer simulationState PAUSE)
  else (decrementRunning simulationState processes,
        simulationReducer simulationState (STEP processes algorithm quantum)).


(** The world after [n] firings of the timer. *)
Fixpoint autoRun (n : nat) (algorithm : string) (quantum : Z) (w : World)
    : World :=
  match n with
  | O => w
  | S n' => autoRunTick algorithm quantum (autoRun n' algorithm quantum w)
  end.

(** The start button pressed on a fresh simulation. *)
Definition started (processes : list Process) : World :=
  (processes, simulationReducer initialState START).






(** * Properties *)

(** ** Facts about the sort *)

Section SortFacts.
Context {A : Type}.
Variable before : A -> A -> bool.

Lemma hd_insert (x : A) (l : list A) :
  hd_error (insert before x l) =
  match hd_error l with
  | None => Some x
  | Some h => if before x h then Some x else Some h
  end.
Proof.
  destruct l as [|y l]; simpl; [reflexivity|].
  destruct (before x y); reflexivity.
Qed.

Lemma hd_sort (l : list A) : hd_error (sort before l) = leader before l.
Proof.
  induction l as [|x l IH]; simpl; [reflexivity|].
  rewrite hd_insert, IH. reflexivity.
Qed.

Lemma leader_some (l : list A) : l <> [] -> exists h, leader before l = Some h.
Proof.
  destruct l as [|x l]; [congruence|]. intros _. simpl.
  destruct (leader before l) as [h|]; [destruct (before x h)|]; eauto.
Qed.

Lemma leader_In (l : list A) (h : A) : leader before l = Some h -> In h l.
Proof.
  revert h. induction l as [|x l IH]; simpl; intros h H; [discriminate|].
  destruct (leader before l) as [h'|].
  - destruct (before x h'); inversion H; subst; auto.
  - inversion H; auto.
Qed.

Lemma leader_none (l : list A) : leader before l = None -> l = [].
Proof.
  destruct l as [|x l]; [reflexivity|]. simpl.
  destruct (leader before l) as [h|]; [destruct (before x h)|]; discriminate.
Qed.

(** On a list where [before] is total and transitive the leader is
    before every element, and it is the first such element of the list:
    whatever stands in front of it is strictly after it. *)
Lemma leader_first_minimum (l : list A) (h : A) :
  (forall a b, In a l -> In b l -> before a b = true \/ before b a = true) ->
  (forall a b c, In a l -> In b l -> In c l ->
     before a b = true -> before b c = true -> before a c = true) ->
  leader before l = Some h ->
  (forall c, In c l -> before h c = true) /\
  exists l1 l2, l = l1 ++ h :: l2 /\ forall c, In c l1 -> before c h = false.
Proof.
  revert h. induction l as [|x l IH]; intros h Htot Htr H; [discriminate|].
  simpl in H. destruct (leader before l) as [h'|] eqn:El.
  - assert (Hin' : In h' l) by (apply leader_In; exact El).
    destruct (IH h') as [Hmin (l1 & l2 & Hl & Hfront)].
    + intros a b Ha Hb. apply Htot; right; assumption.
    + intros a b c Ha Hb Hc. apply Htr; right; assumption.
    + reflexivity.
    + destruct (before x h') eqn:Exh; inversion H; subst h; clear H.
      * split.
        -- intros c [<-|Hc].
           ++ destruct (Htot x x) as [E|E]; simpl; auto.
           ++ apply (Htr x h' c); simpl; auto.
        -- exists [], l. split; [reflexivity|]. intros c [].
      * split.
        -- intros c [<-|Hc]; [|apply Hmin; exact Hc].
           destruct (Htot x h') as [E|E]; simpl; auto. congruence.
        -- exists (x :: l1), l2. split; [simpl; congruence|].
           intros c [<-|Hc]; [exact Exh|apply Hfront; exact Hc].
  - apply leader_none in El. subst l. inversion H; subst h.
    split.
    + intros c [<-|[]]. destruct (Htot x x) as [E|E]; simpl; auto.
    + exists [], []. split; [reflexivity|]. intros c [].
Qed.
End SortFacts.

(** ** The selector returns a candidate *)

Lemma leader_map_fst {B : Type} (f : Process -> B)
    (before : Process * B -> Process * B -> bool) (l : list Process) (h : Process * B) :
  leader before (map (fun p => (p, f p)) l) = Some h ->
  In (fst h) l /\ snd h = f (fst h).
Proof.
  intros H. apply leader_In in H. apply in_map_iff in H.
  destruct H as (p & <- & Hp). simpl. auto.
Qed.

Lemma selectNext_In (l : list Process) (now : Z) (algorithm : string) (r : Process) :
  selectNext l now algorithm = Some r -> In r l.
Proof.
  unfold selectNext, sortBy, sortByRatio. destruct l as [|x l]; [discriminate|].
  repeat match goal with
         | |- context [if ?b then _ else _] => destruct b
         end;
    rewrite ?hd_sort; intros H;
    try (apply leader_In in H; exact H);
    try (simpl in H; inversion H; simpl; auto; fail).
  destruct (leader _ _) as [h|] eqn:E; [|discriminate].
  simpl in H. inversion H; subst r.
  apply (leader_map_fst (responseRatio now)) in E. tauto.
Qed.

Lemma selectNext_some (l : list Process) (now : Z) (algorithm : string) :
  l <> [] -> exists r, selectNext l now algorithm = Some r.
Proof.
  intros Hl. unfold selectNext, sortBy, sortByRatio.
  destruct l as [|x l]; [congruence|].
  repeat match goal with
         | |- context [if ?b then _ else _] => destruct b
         end;
    rewrite ?hd_sort;
    try (apply leader_some; discriminate);
    try (simpl; eauto; fail).
  destruct (leader_some (fun a b => hrnCompare a b <=? 0)
              (map (fun p => (p, responseRatio now p)) (x :: l))) as [h Hh];
    [discriminate|].
  rewrite Hh. simpl. eauto.
Qed.

(** ** Selector: the orders behind SJF and HRN *)

Lemma sjf_before_total (a b : Process) :
  (sjfCompare a b <=? 0) = true \/ (sjfCompare b a <=? 0) = true.
Proof.
  unfold sjfCompare. rewrite !Z.leb_le.
  destruct (Z.eqb_spec (burst a) (burst b)), (Z.eqb_spec (burst b) (burst a)); lia.
Qed.

Lemma sjf_before_trans (a b c : Process) :
  (sjfCompare a b <=? 0) = true -> (sjfCompare b c <=? 0) = true ->
  (sjfCompare a c <=? 0) = true.
Proof.
  unfold sjfCompare. rewrite !Z.leb_le.
  destruct (Z.eqb_spec (burst a) (burst b)), (Z.eqb_spec (burst b) (burst c)),
    (Z.eqb_spec (burst a) (burst c)); lia.
Qed.

Lemma signOf_positive (x : float) :
  0 < signOf x <-> PrimFloat.ltb 0 x = true.
Proof.
  unfold signOf. destruct (PrimFloat.ltb 0 x).
  - split; [reflexivity|lia].
  - destruct (PrimFloat.ltb x 0); split; (lia || discriminate).
Qed.

Lemma hrnBefore_false (now : Z) (a b : Process) :
  hrnBefore (withRatio now a) (withRatio now b) = false <-> outranks now b a.
Proof.
  unfold hrnBefore, hrnCompare, withRatio, outranks, tied, exceeds.
  cbn [fst snd]. rewrite Z.leb_gt.
  destruct (ratioTie (responseRatio now a) (responseRatio now b)).
  - split.
    + intros H. right. split; [reflexivity|lia].
    + intros [[N _]|[_ H]]; [exfalso; apply N; reflexivity|lia].
  - rewrite signOf_positive. split.
    + intros H. left. split; [discriminate|exact H].
    + intros [[_ H]|[T _]]; [exact H|discriminate].
Qed.

Lemma unknownAlgorithm_eqb (algorithm : string) :
  unknownAlgorithm algorithm ->
  (algorithm =? "FCFS")%string = false /\ (algorithm =? "SJF")%string = false
  /\ (algorithm =? "SRT")%string = false
  /\ (algorithm =? "Priority")%string = false
  /\ (algorithm =? "HRN")%string = false /\ (algorithm =? "RR")%string = false.
Proof.
  unfold unknownAlgorithm. rewrite !String.eqb_neq. tauto.
Qed.

(** ** C6: unknown algorithm names *)

(** C6, as stated, fails: under a name that is none of the six, the
    selector returns the first candidate of the list, here the one with the
    larger id. *)
Lemma unknown_algorithm_not_smallest_id :
  unknownAlgorithm "LIFO"
  /\ selectNext twins 0 "LIFO" = Some (job 2 "P2" 0 3 "#4ECDC4")
  /\ ~ smallestId twins (job 2 "P2" 0 3 "#4ECDC4").
Proof.
  split; [|split].
  - unfold unknownAlgorithm. repeat split; discriminate.
  - reflexivity.
  - intros [_ H]. specialize (H (job 1 "P1" 0 3 "#FF6B6B")).
    simpl in H. assert (2 <= 1) by (apply H; auto). lia.
Qed.

(** C6, amended: for a non-empty candidate list and an algorithm name that
    is none of FCFS, SJF, SRT, Priority, HRN, RR, [selectNext] does not fail
    and returns the first candidate of the list as given. *)
Theorem unknown_algorithm_returns_head (l : list Process) (now : Z)
    (algorithm : string) :
  l <> [] ->
  unknownAlgorithm algorithm ->
  exists r, selectNext l now algorithm = Some r /\ hd_error l = Some r.
Proof.
  intros Hl Hu. apply unknownAlgorithm_eqb in Hu.
  destruct Hu as (E1 & E2 & E3 & E4 & E5 & E6).
  destruct l as [|x l]; [congruence|].
  exists x. unfold selectNext. rewrite E1, E2, E3, E4, E5, E6.
  split; reflexivity.
Qed.

Lemma unknown_algorithm_returns_head_witness :
  exists r, selectNext twins 0 "LIFO" = Some r /\ hd_error twins = Some r.
Proof.
  apply (unknown_algorithm_returns_head twins 0 "LIFO").
  - discriminate.
  - unfold unknownAlgorithm. repeat split; discriminate.
Defined.

(** ** C8: SJF *)

(** C8, as stated, fails: two candidates with equal burst and equal arrival
    are not ordered by id; the one that stands first in the list wins. *)
Lemma sjf_equal_keys_not_by_id :
  selectNext twins 0 "SJF" = Some (job 2 "P2" 0 3 "#4ECDC4")
  /\ ~ shortestThenEarliestThenId twins (job 2 "P2" 0 3 "#4ECDC4").
Proof.
  split; [reflexivity|].
  intros [_ H]. destruct (H (job 1 "P1" 0 3 "#FF6B6B")) as (_ & _ & Hid).
  - simpl. auto.
  - simpl in Hid. assert (2 <= 1) by (apply Hid; reflexivity). lia.
Qed.

(** C8, amended: for a non-empty candidate list, SJF returns a candidate
    with minimal burst; among those, one with minimal arrival; among
    candidates equal in both, the one that stands first in the list. *)
Theorem sjf_selects_first_shortest (l : list Process) (now : Z) :
  l <> [] ->
  exists r l1 l2,
    selectNext l now "SJF" = Some r
    /\ l = l1 ++ r :: l2
    /\ (forall c, In c l ->
          burst r <= burst c /\ (burst c = burst r -> arrival r <= arrival c))
    /\ (forall c, In c l1 -> ~ (burst c = burst r /\ arrival c = arrival r)).
Proof.
  intros Hl.
  destruct (leader_some (fun a b => sjfCompare a b <=? 0) l Hl) as [r Hr].
  destruct (leader_first_minimum (fun a b => sjfCompare a b <=? 0) l r)
    as [Hmin (l1 & l2 & Hsplit & Hfront)].
  - intros a b _ _. apply sjf_before_total.
  - intros a b c _ _ _. apply sjf_before_trans.
  - exact Hr.
  - exists r, l1, l2. repeat split.
    + destruct l as [|x l']; [congruence|].
      unfold selectNext, sortBy. simpl String.eqb. cbv iota.
      rewrite hd_sort. exact Hr.
    + exact Hsplit.
    + specialize (Hmin c H). apply Z.leb_le in Hmin. unfold sjfCompare in Hmin.
      destruct (Z.eqb_spec (burst r) (burst c)); lia.
    + intros E. specialize (Hmin c H). apply Z.leb_le in Hmin.
      unfold sjfCompare in Hmin.
      destruct (Z.eqb_spec (burst r) (burst c)); lia.
    + intros c Hc [Eb Ea]. specialize (Hfront c Hc).
      apply Z.leb_gt in Hfront. unfold sjfCompare in Hfront.
      destruct (Z.eqb_spec (burst c) (burst r)); lia.
Qed.

Lemma sjf_selects_first_shortest_witness :
  exists r l1 l2,
    selectNext twins 0 "SJF" = Some r
    /\ twins = l1 ++ r :: l2
    /\ (forall c, In c twins ->
          burst r <= burst c /\ (burst c = burst r -> arrival r <= arrival c))
    /\ (forall c, In c l1 -> ~ (burst c = burst r /\ arrival c = arrival r)).
Proof.
  apply (sjf_selects_first_shortest twins 0). discriminate.
Defined.

(** ** C7: HRN *)

(** Neighbours of the chain tie, its two ends do not. *)
Lemma hrnChain_ties :
  tied 20 hrnSlow hrnMiddle /\ tied 20 hrnMiddle hrnFast
  /\ ~ tied 20 hrnSlow hrnFast.
Proof.
  repeat split; try (vm_compute; reflexivity). vm_compute. discriminate.
Qed.

(** The tie test is the test of the doubles: the ratios 201/200 and 502/500
    are 0.001 apart, their doubles less than that, and the earlier arrival
    is returned. *)
Lemma hrn_tie_of_doubles :
  tied 10 hrnNear hrnEarly
  /\ selectNext [hrnNear; hrnEarly] 10 "HRN" = Some hrnEarly.
Proof. split; vm_compute; reflexivity. Qed.

(** C7, as stated, fails.  At time 20 the selector returns [hrnSlow], yet
    the ratio of [hrnFast] is larger by 0.0016, more than the tolerance:
    each candidate ties with its neighbour and the earlier arrival wins the
    tie.  The tie test is not transitive, and on these three candidates the
    order it defines has no first element at all. *)
Lemma hrn_tolerance_has_no_best :
  selectNext hrnChain 20 "HRN" = Some hrnSlow
  /\ PrimFloat.ltb (PrimFloat.add (responseRatio 20 hrnSlow) tolerance)
                   (responseRatio 20 hrnFast) = true
  /\ outranks 20 hrnFast hrnSlow
  /\ ~ hrnBest hrnChain 20 hrnSlow
  /\ forall r, ~ hrnBest hrnChain 20 r.
Proof.
  assert (FM : outranks 20 hrnMiddle hrnFast).
  { right. split; [vm_compute; reflexivity|]. simpl. lia. }
  assert (MS : outranks 20 hrnSlow hrnMiddle).
  { right. split; [vm_compute; reflexivity|]. simpl. lia. }
  assert (SF : outranks 20 hrnFast hrnSlow).
  { left. split; [vm_compute; discriminate|vm_compute; reflexivity]. }
  split; [vm_compute; reflexivity|]. split; [vm_compute; reflexivity|].
  split; [exact SF|]. split.
  - intros [_ H]. apply (H hrnFast); [simpl; auto|exact SF].
  - intros r [Hin H]. simpl in Hin.
    destruct Hin as [<-|[<-|[<-|[]]]].
    + apply (H hrnFast); [simpl; auto|exact SF].
    + apply (H hrnSlow); [simpl; auto|exact MS].
    + apply (H hrnMiddle); [simpl; auto|exact FM].
Qed.

(** C7, amended: for a non-empty list of candidates with safe integer
    times on which the comparator of HRN is consistent (swapping its
    arguments swaps the sign, and "not after" is transitive), HRN returns a
    candidate that no candidate outranks, where a candidate outranks another
    when the two do not tie and its ratio is the larger one, or when they
    tie and it arrived earlier; a tie is a difference of the ratios below
    0.001, the ratios, their difference and the test being those of the
    doubles.  Of several such candidates the first of the list is returned.
    The ratio is computed from the [currentTime] argument of the call: a
    process with arrival 0 and burst 5 has ratio 2 at time 5. *)
Theorem hrn_selects_first_best (l : list Process) (now : Z) :
  l <> [] ->
  safeCandidates l now ->
  hrnConsistent l now ->
  (exists r l1 l2,
     selectNext l now "HRN" = Some r
     /\ l = l1 ++ r :: l2
     /\ (forall c, In c l -> ~ outranks now c r)
     /\ (forall c, In c l1 -> outranks now r c))
  /\ (forall p, arrival p = 0 -> burst p = 5 -> responseRatio 5 p = 2%float).
Proof.
  intros Hl _ [Hsign Htrans]. split.
  2:{ intros p Ha Hb. unfold responseRatio. rewrite Ha, Hb.
      vm_compute. reflexivity. }
  set (lq := map (withRatio now) l).
  assert (Hlq : lq <> []) by (destruct l; [congruence|discriminate]).
  destruct (leader_some hrnBefore lq Hlq) as [h Hh].
  assert (Hin : forall x, In x lq -> exists p, In p l /\ x = withRatio now p).
  { intros x Hx. apply in_map_iff in Hx. destruct Hx as (p & <- & Hp). eauto. }
  destruct (leader_first_minimum hrnBefore lq h)
    as [Hmin (q1 & q2 & Hsplit & Hfront)].
  - intros a b Ha Hb.
    destruct (Hin a Ha) as (pa & Ia & ->), (Hin b Hb) as (pb & Ib & ->).
    specialize (Hsign pa pb Ia Ib). unfold hrnBefore. rewrite !Z.leb_le. lia.
  - intros a b c Ha Hb Hc.
    destruct (Hin a Ha) as (pa & Ia & ->), (Hin b Hb) as (pb & Ib & ->),
      (Hin c Hc) as (pc & Ic & ->).
    apply Htrans; assumption.
  - exact Hh.
  - destruct (Hin h (leader_In _ _ _ Hh)) as (r & Hr & ->).
    unfold lq in Hsplit. apply map_eq_app in Hsplit.
    destruct Hsplit as (l1 & l2' & El & E1 & E2).
    destruct l2' as [|r' l2]; [discriminate|].
    simpl in E2. inversion E2 as [[Er Eq E2']]. subst r'.
    exists r, l1, l2. repeat split.
    + destruct l as [|x l']; [congruence|].
      unfold selectNext, sortByRatio. simpl String.eqb. cbv iota.
      rewrite hd_sort. fold (withRatio now). fold hrnBefore. fold lq.
      rewrite Hh. reflexivity.
    + exact El.
    + intros c Hc Hout. apply hrnBefore_false in Hout.
      rewrite Hmin in Hout; [discriminate|].
      unfold lq. apply in_map. exact Hc.
    + intros c Hc. apply hrnBefore_false. apply Hfront.
      rewrite <- E1. apply in_map. exact Hc.
Qed.

Lemma hrn_selects_first_best_witness :
  (exists r l1 l2,
     selectNext [hrnNear; hrnEarly] 10 "HRN" = Some r
     /\ [hrnNear; hrnEarly] = l1 ++ r :: l2
     /\ (forall c, In c [hrnNear; hrnEarly] -> ~ outranks 10 c r)
     /\ (forall c, In c l1 -> outranks 10 r c))
  /\ (forall p, arrival p = 0 -> burst p = 5 -> responseRatio 5 p = 2%float).
Proof.
  apply (hrn_selects_first_best [hrnNear; hrnEarly] 10).
  - discriminate.
  - intros p [<-|[<-|[]]]; unfold safeInteger; simpl; lia.
  - split.
    + intros a b [<-|[<-|[]]] [<-|[<-|[]]]; vm_compute; reflexivity.
    + intros a b c [<-|[<-|[]]] [<-|[<-|[]]] [<-|[<-|[]]];
        vm_compute; intros; congruence.
Defined.

(** ** C5: the termination check *)

Lemma allCompleted_forall (processes : list Process) :
  allCompleted processes = true <-> forall p, In p processes -> remaining p = 0.
Proof.
  unfold allCompleted. rewrite forallb_forall.
  split; intros H p Hp; [apply Z.eqb_eq|apply Z.eqb_eq]; auto.
Qed.

(** C5: when every process of the set has remaining 0 (the empty set
    included), the step clears the running flag and leaves every other
    field of the state as it was. *)
Theorem step_all_completed_only_clears_running (state : SimulationState)
    (processes : list Process) (algorithm : string) (quantum : Z) :
  (forall p, In p processes -> remaining p = 0) ->
  let state' := executeSimulationStep state processes algorithm quantum in
  isRunning state' = false
  /\ currentTime state' = currentTime state
  /\ ganttChart state' = ganttChart state
  /\ currentProcess state' = currentProcess state
  /\ readyQueue state' = readyQueue state
  /\ completedProcesses state' = completedProcesses state
  /\ quantumRemaining state' = quantumRemaining state.
Proof.
  intros H. apply allCompleted_forall in H. unfold allCompleted in H.
  unfold executeSimulationStep. rewrite H. simpl. repeat split.
Qed.

Lemma step_all_completed_only_clears_running_witness :
  let state := mkState 7 [mkGanttEntry "P1" 0 7 "#FF6B6B"]
                 (Some (job 1 "P1" 0 7 "#FF6B6B")) [job 1 "P1" 0 7 "#FF6B6B"]
                 [] 1 true in
  let processes := [mkProcess 1 "P1" 0 7 1 0 "#FF6B6B"] in
  let state' := executeSimulationStep state processes "RR" 2 in
  isRunning state' = false
  /\ currentTime state' = currentTime state
  /\ ganttChart state' = ganttChart state
  /\ currentProcess state' = currentProcess state
  /\ readyQueue state' = readyQueue state
  /\ completedProcesses state' = completedProcesses state
  /\ quantumRemaining state' = quantumRemaining state.
Proof.
  intros state processes.
  apply (step_all_completed_only_clears_running state processes "RR" 2).
  intros p [<-|[]]. reflexivity.
Defined.

(** ** C2: Round Robin with quantum 2 *)

(** C2 on the code: the selection runs on every tick under RR and sets the
    quantum counter back to the quantum each time, so with quantum 2 the
    counter is 1 after every step, the expiry test [quantumRemaining === 0]
    never holds, and P1 runs to its end before P2 starts. *)
Theorem rr_quantum_two_never_rotates :
  exists w,
    runToCompletion 20 "RR" 2 (rrProcesses, initialState) = Some w
    /\ allCompleted (fst w) = true
    /\ timelineOf w = [("P1", 0, 5); ("P2", 5, 10)]
    /\ timelineOf w <>
       [("P1", 0, 2); ("P2", 2, 4); ("P1", 4, 6); ("P2", 6, 8);
        ("P1", 8, 9); ("P2", 9, 10)]
    /\ forall n, (1 <= n <= 10)%nat ->
         quantumRemaining (snd (iterDriver n "RR" 2 (rrProcesses, initialState))) = 1.
Proof.
  eexists. split; [vm_compute; reflexivity|].
  split; [reflexivity|]. split; [reflexivity|]. split; [discriminate|].
  intros n Hn.
  do 11 (destruct n as [|n]; [try lia; try reflexivity|]). lia.
Qed.

(** ** C3: SRT preemption *)

(** C3: P1 runs over ticks 0-2; at tick 2 the live remaining times are 3
    for P1 and 2 for P2, and the step makes P2 the current process; P2 runs
    over ticks 2-4 and P1 over ticks 4-7, when every process is complete. *)
Theorem srt_preemption_timeline (quantum : Z) :
  let w2 := iterDriver 2 "SRT" quantum (srtProcesses, initialState) in
  let w3 := driverStep "SRT" quantum w2 in
  timelineOf w2 = [("P1", 0, 2)]
  /\ option_map id (currentProcess (snd w2)) = Some 1
  /\ map (fun p => (id p, remaining p)) (fst w3) = [(1, 3); (2, 2)]
  /\ option_map id (currentProcess (snd w3)) = Some 2
  /\ timelineOf w3 = [("P1", 0, 2); ("P2", 2, 3)]
  /\ exists w,
       runToCompletion 20 "SRT" quantum (srtProcesses, initialState) = Some w
       /\ allCompleted (fst w) = true
       /\ currentTime (snd w) = 7
       /\ timelineOf w = [("P1", 0, 2); ("P2", 2, 4); ("P1", 4, 7)].
Proof.
  repeat split. eexists. split; [vm_compute; reflexivity|]. repeat split.
Qed.

(** ** Facts about the queue operations *)

Lemma find_id_none (q : list Process) (i : Z) :
  find (fun rp => id rp =? i) q = None <-> ~ In i (ids q).
Proof.
  unfold ids. induction q as [|x q IH]; simpl; [tauto|].
  destruct (Z.eqb_spec (id x) i); split; intros H.
  - discriminate.
  - exfalso. apply H. auto.
  - intros [E|E]; [contradiction|]. apply IH in H. contradiction.
  - apply IH. intros E. apply H. auto.
Qed.

Lemma findById_some (processes : list Process) (i : Z) (p : Process) :
  findById processes i = Some p -> In p processes /\ id p = i.
Proof.
  unfold findById. intros H. apply find_some in H.
  destruct H as [H1 H2]. apply Z.eqb_eq in H2. auto.
Qed.

Lemma ids_inj (l : list Process) (a b : Process) :
  NoDup (ids l) -> In a l -> In b l -> id a = id b -> a = b.
Proof.
  unfold ids. induction l as [|x l IH]; simpl; intros Hnd Ha Hb E; [contradiction|].
  inversion Hnd as [|? ? Hx Hl]; subst.
  destruct Ha as [<-|Ha], Hb as [<-|Hb]; auto.
  - exfalso. apply Hx. rewrite E. apply in_map. exact Hb.
  - exfalso. apply Hx. rewrite <- E. apply in_map. exact Ha.
Qed.

Lemma findById_unique (processes : list Process) (p : Process) :
  NoDup (ids processes) -> In p processes ->
  findById processes (id p) = Some p.
Proof.
  intros Hnd Hp. destruct (findById processes (id p)) as [q|] eqn:E.
  - apply findById_some in E. destruct E as [Hq Hid].
    f_equal. apply (ids_inj processes); auto.
  - unfold findById in E. apply find_id_none in E.
    exfalso. apply E. unfold ids. apply in_map. exact Hp.
Qed.

Lemma includes_In (xs : list Z) (i : Z) : includes xs i = true <-> In i xs.
Proof.
  unfold includes. rewrite existsb_exists. split.
  - intros (x & Hx & E). apply Z.eqb_eq in E. subst. exact Hx.
  - intros H. exists i. split; [exact H|apply Z.eqb_refl].
Qed.

Lemma includes_false (xs : list Z) (i : Z) : includes xs i = false <-> ~ In i xs.
Proof. rewrite <- includes_In. symmetry. apply not_true_iff_false. Qed.

Lemma withoutId_In (i : Z) (q : list Process) (x : Process) :
  In x (withoutId i q) <-> In x q /\ id x <> i.
Proof.
  unfold withoutId. rewrite filter_In, negb_true_iff, Z.eqb_neq. tauto.
Qed.

Lemma withoutId_ids (i j : Z) (q : list Process) :
  In j (ids (withoutId i q)) <-> In j (ids q) /\ j <> i.
Proof.
  unfold ids. rewrite !in_map_iff. split.
  - intros (x & <- & Hx). apply withoutId_In in Hx. destruct Hx. eauto.
  - intros [(x & <- & Hx) Hne]. exists x. split; [reflexivity|].
    apply withoutId_In. auto.
Qed.

Lemma withoutId_NoDup (i : Z) (q : list Process) :
  NoDup (ids q) -> NoDup (ids (withoutId i q)).
Proof.
  unfold ids, withoutId. induction q as [|x q IH]; simpl; intros H; [constructor|].
  inversion H as [|? ? Hx Hq]; subst.
  destruct (negb (id x =? i)); simpl; auto.
  constructor; auto.
  intros Hin. apply Hx. apply in_map_iff in Hin.
  destruct Hin as (y & E & Hy). apply filter_In in Hy.
  apply in_map_iff. exists y. tauto.
Qed.

Lemma ids_app (a b : list Process) : ids (a ++ b) = ids a ++ ids b.
Proof. apply map_app. Qed.

Lemma NoDup_snoc {A : Type} (l : list A) (x : A) :
  NoDup l -> ~ In x l -> NoDup (l ++ [x]).
Proof.
  intros Hl Hx. induction Hl as [|y l Hy Hl IH]; simpl.
  - constructor; [tauto|constructor].
  - constructor.
    + rewrite in_app_iff. simpl. intros [H|[H|[]]]; [contradiction|].
      subst. apply Hx. simpl. auto.
    + apply IH. intros H. apply Hx. simpl. auto.
Qed.

Lemma enqueueArrived_incl (queue arrived : list Process) (x : Process) :
  In x queue -> In x (enqueueArrived queue arrived).
Proof.
  unfold enqueueArrived. revert queue. induction arrived as [|p arrived IH]; simpl; intros queue H.
  - exact H.
  - apply IH. destruct (find _ queue); [exact H|].
    apply in_or_app. auto.
Qed.

Lemma enqueueArrived_In (queue arrived : list Process) (x : Process) :
  In x (enqueueArrived queue arrived) -> In x queue \/ In x arrived.
Proof.
  unfold enqueueArrived. revert queue. induction arrived as [|p arrived IH]; simpl; intros queue H.
  - auto.
  - apply IH in H. destruct H as [H|H]; [|auto].
    destruct (find _ queue); [auto|].
    apply in_app_or in H. destruct H as [H|[<-|[]]]; auto.
Qed.

Lemma enqueueArrived_NoDup (queue arrived : list Process) :
  NoDup (ids queue) -> NoDup (ids (enqueueArrived queue arrived)).
Proof.
  unfold enqueueArrived. revert queue. induction arrived as [|p arrived IH]; simpl; intros queue H.
  - exact H.
  - apply IH. destruct (find _ queue) eqn:E; [exact H|].
    apply find_id_none in E. rewrite ids_app. apply NoDup_snoc; assumption.
Qed.

Lemma enqueueArrived_arrived (queue arrived : list Process) (p : Process) :
  In p arrived -> In (id p) (ids (enqueueArrived queue arrived)).
Proof.
  unfold enqueueArrived. revert queue. induction arrived as [|a arrived IH]; simpl; intros queue H.
  - contradiction.
  - destruct H as [<-|H]; [|apply IH; exact H].
    assert (Hq : In (id a) (ids (match find (fun rp => id rp =? id a) queue with
                                 | Some _ => queue
                                 | None => queue ++ [a]
                                 end))).
    { destruct (find _ queue) eqn:E.
      - destruct (in_dec Z.eq_dec (id a) (ids queue)) as [I|I]; [exact I|].
        apply find_id_none in I. congruence.
      - rewrite ids_app. apply in_or_app. right. simpl. auto. }
    unfold ids in Hq. apply in_map_iff in Hq. destruct Hq as (y & Ey & Hy).
    apply in_map_iff. exists y. split; [exact Ey|].
    apply (enqueueArrived_incl _ arrived y) in Hy. exact Hy.
Qed.

Lemma arrivedProcesses_In (state : SimulationState) (processes : list Process)
    (p : Process) :
  In p (arrivedProcesses state processes) <->
  In p processes /\ arrival p = currentTime state
  /\ ~ In (id p) (completedProcesses state) /\ 0 < remaining p.
Proof.
  unfold arrivedProcesses. rewrite filter_In, !andb_true_iff, negb_true_iff,
    Z.eqb_eq, Z.ltb_lt, includes_false. tauto.
Qed.

(** ** The step, phase by phase *)

Lemma step_stopped (state : SimulationState) (processes : list Process)
    (algorithm : string) (quantum : Z) :
  allCompleted processes = true ->
  executeSimulationStep state processes algorithm quantum =
  mkState (currentTime state) (ganttChart state) (currentProcess state)
    (readyQueue state) (completedProcesses state) (quantumRemaining state) false.
Proof.
  unfold allCompleted, executeSimulationStep. intros ->. reflexivity.
Qed.

Lemma step_running (state : SimulationState) (processes : list Process)
    (algorithm : string) (quantum : Z) :
  allCompleted processes = false ->
  let v := stepVars state processes algorithm quantum in
  let state' := executeSimulationStep state processes algorithm quantum in
  currentTime state' = currentTime state + 1
  /\ currentProcess state' = vCurrent v
  /\ readyQueue state' = vQueue v
  /\ completedProcesses state' = vCompleted v
  /\ ganttChart state' =
     match vCurrent v with
     | Some c => occupy (name c) (color c) (currentTime state) (ganttChart state)
     | None =>
       if hasUnArrived state processes
       then occupy "IDLE" "#E5E7EB" (currentTime state) (ganttChart state)
       else ganttChart state
     end.
Proof.
  unfold allCompleted, executeSimulationStep. intros ->.
  fold (startVars state processes).
  fold (stepVars state processes algorithm quantum).
  destruct (vCurrent (stepVars state processes algorithm quantum));
    simpl; repeat split.
Qed.

Lemma retire_Within (Q : Z -> Prop) (processes : list Process) (v : Vars) :
  Within Q v -> Within Q (retire processes v).
Proof.
  intros H. pose proof H as [Hq Hc]. unfold retire.
  destruct (vCurrent v) as [c|] eqn:Ec; [|exact H].
  destruct (remainingIsZero _); [|exact H].
  split; simpl; [|discriminate].
  intros x Hx. apply withoutId_In in Hx. apply Hq. tauto.
Qed.

Lemma expire_Within (Q : Z -> Prop) (state : SimulationState)
    (processes : list Process) (algorithm : string) (v : Vars) :
  Within Q v -> Within Q (expire state processes algorithm v).
Proof.
  intros H. pose proof H as [Hq Hc]. unfold expire.
  destruct (vCurrent v) as [c|] eqn:Ec; [|exact H].
  destruct (_ && _); [|exact H].
  split; simpl; [|discriminate].
  assert (Hw : forall x, In x (withoutId (id c) (vQueue v)) -> Q (id x)).
  { intros x Hx. apply withoutId_In in Hx. apply Hq. tauto. }
  destruct (findById processes (id c)) as [ps|] eqn:Ef; [|exact Hw].
  destruct (0 <? remaining ps); [|exact Hw].
  intros x Hx. apply in_app_or in Hx. destruct Hx as [Hx|[<-|[]]]; [auto|].
  apply findById_some in Ef. destruct Ef as [_ ->]. apply Hc. reflexivity.
Qed.

Lemma availableProcesses_In (processes : list Process) (v : Vars) (x : Process) :
  In x (availableProcesses processes v) <->
  In x (vQueue v)
  /\ remainingIsPositive (findById processes (id x)) = true
  /\ ~ In (id x) (vCompleted v).
Proof.
  unfold availableProcesses.
  rewrite filter_In, andb_true_iff, negb_true_iff, includes_false. tauto.
Qed.

(** What the selection leaves in the current-process slot: the process it
    held, or a process of the available ones. *)
Lemma choose_cases (state : SimulationState) (processes : list Process)
    (algorithm : string) (quantum : Z) (v : Vars) :
  vQueue (choose state processes algorithm quantum v) = vQueue v
  /\ vCompleted (choose state processes algorithm quantum v) = vCompleted v
  /\ (vCurrent (choose state processes algorithm quantum v) = vCurrent v
      \/ exists n, vCurrent (choose state processes algorithm quantum v) = Some n
                   /\ In n (availableProcesses processes v)).
Proof.
  unfold choose.
  destruct (match vCurrent v with None => true | Some _ => preemptive algorithm end);
    [|auto].
  destruct (availableProcesses processes v) as [|a l] eqn:Ea; [auto|].
  destruct (selectNext_some (a :: l) (currentTime state) algorithm) as [n Hn];
    [discriminate|].
  rewrite Hn.
  match goal with |- context [if ?b then _ else _] => destruct b end; [auto|].
  simpl. repeat split. right. exists n. split; [reflexivity|].
  apply selectNext_In in Hn. exact Hn.
Qed.

Lemma choose_Within (Q : Z -> Prop) (state : SimulationState)
    (processes : list Process) (algorithm : string) (quantum : Z) (v : Vars) :
  Within Q v -> Within Q (choose state processes algorithm quantum v).
Proof.
  intros [Hq Hc].
  destruct (choose_cases state processes algorithm quantum v)
    as (Eq & _ & [Ec|(n & Ec & Hn)]); split; rewrite ?Eq, ?Ec; auto.
  intros c E. inversion E; subst c.
  apply availableProcesses_In in Hn. apply Hq. tauto.
Qed.

Lemma stepVars_Within (Q : Z -> Prop) (state : SimulationState)
    (processes : list Process) (algorithm : string) (quantum : Z) :
  Within Q (startVars state processes) ->
  Within Q (stepVars state processes algorithm quantum).
Proof.
  intros H. unfold stepVars.
  apply choose_Within, expire_Within, retire_Within, H.
Qed.

(** ** C10: late processes are not admitted *)

(** C10: a process of the set whose arrival is strictly before the current
    time, whose id is not in the ready queue and which is not the current
    process, is not in the ready queue after the step either, and the step
    does not make it the current process.  Ids are unique in the process
    set, as the data model has it. *)
Theorem late_process_stays_out (state : SimulationState)
    (processes : list Process) (algorithm : string) (quantum : Z) (p : Process) :
  NoDup (ids processes) ->
  In p processes ->
  arrival p < currentTime state ->
  ~ In (id p) (ids (readyQueue state)) ->
  (forall c, currentProcess state = Some c -> id c <> id p) ->
  let state' := executeSimulationStep state processes algorithm quantum in
  ~ In (id p) (ids (readyQueue state'))
  /\ (forall c, currentProcess state' = Some c -> id c <> id p).
Proof.
  intros Hnd Hp Hlate Hq Hc state'. subst state'.
  destruct (allCompleted processes) eqn:Eall.
  - rewrite step_stopped by exact Eall. simpl. auto.
  - destruct (step_running state processes algorithm quantum Eall)
      as (_ & Ec & Eq & _). rewrite Ec, Eq.
    assert (W : Within (fun i => i <> id p)
                  (stepVars state processes algorithm quantum)).
    { apply stepVars_Within. split; simpl; [|exact Hc].
      intros x Hx E. apply enqueueArrived_In in Hx. destruct Hx as [Hx|Hx].
      - apply Hq. rewrite <- E. unfold ids. apply in_map. exact Hx.
      - apply arrivedProcesses_In in Hx. destruct Hx as (Hx & Ha & _).
        assert (x = p) by (apply (ids_inj processes); auto).
        subst x. lia. }
    destruct W as [Wq Wc]. split; [|exact Wc].
    intros H. unfold ids in H. apply in_map_iff in H.
    destruct H as (x & E & Hx). exact (Wq x Hx E).
Qed.

Lemma late_process_stays_out_witness :
  let state := mkState 3 [mkGanttEntry "P1" 0 3 "#FF6B6B"]
                 (Some (job 1 "P1" 0 5 "#FF6B6B")) [job 1 "P1" 0 5 "#FF6B6B"]
                 [] 0 true in
  let late := job 2 "P2" 2 2 "#4ECDC4" in
  let processes := [mkProcess 1 "P1" 0 5 1 2 "#FF6B6B"; late] in
  let state' := executeSimulationStep state processes "SRT" 2 in
  ~ In (id late) (ids (readyQueue state'))
  /\ (forall c, currentProcess state' = Some c -> id c <> id late).
Proof.
  intros state late processes.
  apply (late_process_stays_out state processes "SRT" 2 late).
  - repeat constructor; simpl; intuition discriminate.
  - simpl. auto.
  - simpl. lia.
  - simpl. intuition discriminate.
  - intros c E. inversion E. simpl. discriminate.
Defined.

(** ** C1: the roles of a process id *)

Lemma startVars_Apart (state : SimulationState) (processes : list Process) :
  Apart (varsOf state) -> Apart (startVars state processes).
Proof.
  intros (J1 & J2 & J3 & J4 & J5). unfold startVars. repeat split; simpl in *.
  - intros i Hi Hin. unfold ids in Hin. apply in_map_iff in Hin.
    destruct Hin as (x & <- & Hx). apply enqueueArrived_In in Hx. destruct Hx as [Hx|Hx].
    + apply (J1 (id x) Hi). unfold ids. apply in_map. exact Hx.
    + apply arrivedProcesses_In in Hx. tauto.
  - exact J2.
  - apply enqueueArrived_NoDup. exact J3.
  - exact J4.
  - intros c Hc. specialize (J5 c Hc). unfold ids in *.
    apply in_map_iff in J5. destruct J5 as (x & <- & Hx).
    apply in_map. apply enqueueArrived_incl. exact Hx.
Qed.

Lemma retire_Apart (processes : list Process) (v : Vars) :
  Apart v -> Apart (retire processes v).
Proof.
  intros H. pose proof H as (J1 & J2 & J3 & J4 & J5). unfold retire.
  destruct (vCurrent v) as [c|] eqn:Ec; [|exact H].
  destruct (remainingIsZero _); [|exact H].
  repeat split; simpl; try discriminate.
  - intros i Hi Hin. apply withoutId_ids in Hin. destruct Hin as [Hin Hne].
    apply in_app_or in Hi. destruct Hi as [Hi|[Hi|[]]]; [|congruence].
    exact (J1 i Hi Hin).
  - apply withoutId_NoDup. exact J3.
  - apply NoDup_snoc; [exact J4|]. apply J2. reflexivity.
Qed.

Lemma expire_Apart (state : SimulationState) (processes : list Process)
    (algorithm : string) (v : Vars) :
  Apart v -> Apart (expire state processes algorithm v).
Proof.
  intros H. pose proof H as (J1 & J2 & J3 & J4 & J5). unfold expire.
  destruct (vCurrent v) as [c|] eqn:Ec; [|exact H].
  destruct (_ && _); [|exact H].
  assert (K1 : forall i, In i (vCompleted v) ->
                 ~ In i (ids (withoutId (id c) (vQueue v)))).
  { intros i Hi Hin. apply withoutId_ids in Hin. exact (J1 i Hi (proj1 Hin)). }
  assert (K3 : NoDup (ids (withoutId (id c) (vQueue v))))
    by (apply withoutId_NoDup; exact J3).
  destruct (findById processes (id c)) as [ps|] eqn:Ef;
    [destruct (0 <? remaining ps)|];
    repeat split; simpl; try discriminate; try assumption.
  - apply findById_some in Ef. destruct Ef as [_ Eid].
    intros i Hi Hin. rewrite ids_app in Hin. apply in_app_or in Hin.
    destruct Hin as [Hin|[Hin|[]]]; [exact (K1 i Hi Hin)|].
    apply (J2 c); [reflexivity|]. simpl in Hin. congruence.
  - apply findById_some in Ef. destruct Ef as [_ Eid].
    rewrite ids_app. apply NoDup_snoc; [exact K3|].
    simpl. rewrite Eid. intros Hin. apply withoutId_ids in Hin. tauto.
Qed.

Lemma choose_Apart (state : SimulationState) (processes : list Process)
    (algorithm : string) (quantum : Z) (v : Vars) :
  Apart v -> Apart (choose state processes algorithm quantum v).
Proof.
  intros H. pose proof H as (J1 & J2 & J3 & J4 & J5).
  destruct (choose_cases state processes algorithm quantum v)
    as (Eq & Ed & [Ec|(n & Ec & Hn)]);
    unfold Apart; rewrite Eq, Ed, Ec; repeat split; auto.
  - intros c E. inversion E; subst c.
    apply availableProcesses_In in Hn. tauto.
  - intros c E. inversion E; subst c.
    apply availableProcesses_In in Hn. unfold ids. apply in_map. tauto.
Qed.

Lemma step_Apart (state : SimulationState) (processes : list Process)
    (algorithm : string) (quantum : Z) :
  Apart (varsOf state) ->
  Apart (varsOf (executeSimulationStep state processes algorithm quantum)).
Proof.
  intros H. destruct (allCompleted processes) eqn:Eall.
  - rewrite step_stopped by exact Eall. exact H.
  - destruct (step_running state processes algorithm quantum Eall)
      as (_ & Ec & Eq & Ed & _).
    assert (A : Apart (stepVars state processes algorithm quantum)).
    { unfold stepVars.
      apply choose_Apart, expire_Apart, retire_Apart, startVars_Apart, H. }
    unfold Apart, varsOf in *. simpl. rewrite Ec, Eq, Ed. exact A.
Qed.

Lemma reachable_Apart (processes0 : list Process) (algorithm : string)
    (quantum : Z) (w : World) :
  reachable processes0 algorithm quantum w -> Apart (varsOf (snd w)).
Proof.
  induction 1 as [|w Hw IH].
  - simpl. unfold Apart. simpl. repeat split; try constructor; try tauto; discriminate.
  - simpl. apply step_Apart. exact IH.
Qed.

(** C1, as stated, fails: the step that gives the processor to a process
    leaves it in the ready queue.  After the first step of a single process
    under FCFS, P1 is both the current process and queued. *)
Lemma running_process_stays_queued :
  let w := driverStep "FCFS" 2 ([job 1 "P1" 0 5 "#FF6B6B"], initialState) in
  reachable [job 1 "P1" 0 5 "#FF6B6B"] "FCFS" 2 w
  /\ option_map id (currentProcess (snd w)) = Some 1
  /\ ids (readyQueue (snd w)) = [1]
  /\ ~ rolesDisjoint (snd w).
Proof.
  split; [apply reach_step, reach_init|].
  split; [reflexivity|]. split; [reflexivity|].
  intros [H _]. apply (H (job 1 "P1" 0 5 "#FF6B6B")); [reflexivity|].
  simpl. auto.
Qed.

(** C1, amended: in every state reachable by the driver protocol, an id of
    the completed set is neither in the ready queue nor the id of the
    current process, no id occurs twice in the ready queue or in the
    completed set, and the current process, when there is one, is also an
    entry of the ready queue. *)
Theorem reachable_roles (processes0 : list Process) (algorithm : string)
    (quantum : Z) (w : World) :
  reachable processes0 algorithm quantum w ->
  (forall i, In i (completedProcesses (snd w)) ->
     ~ In i (ids (readyQueue (snd w)))
     /\ forall c, currentProcess (snd w) = Some c -> id c <> i)
  /\ NoDup (ids (readyQueue (snd w)))
  /\ NoDup (completedProcesses (snd w))
  /\ (forall c, currentProcess (snd w) = Some c ->
        In (id c) (ids (readyQueue (snd w)))).
Proof.
  intros H. apply reachable_Apart in H.
  destruct H as (J1 & J2 & J3 & J4 & J5). simpl in *.
  repeat split; auto.
  intros c Hc E. apply (J2 c Hc). rewrite E. exact H.
Qed.

Lemma reachable_roles_witness :
  let w := driverStep "FCFS" 2 ([job 1 "P1" 0 5 "#FF6B6B"], initialState) in
  (forall i, In i (completedProcesses (snd w)) ->
     ~ In i (ids (readyQueue (snd w)))
     /\ forall c, currentProcess (snd w) = Some c -> id c <> i)
  /\ NoDup (ids (readyQueue (snd w)))
  /\ NoDup (completedProcesses (snd w))
  /\ (forall c, currentProcess (snd w) = Some c ->
        In (id c) (ids (readyQueue (snd w)))).
Proof.
  intros w.
  apply (reachable_roles [job 1 "P1" 0 5 "#FF6B6B"] "FCFS" 2 w).
  apply reach_step, reach_init.
Defined.

(** ** The chart as a list that grows at its end *)

Lemma lastEntry_nil : lastEntry [] = None.
Proof. reflexivity. Qed.

Lemma lastEntry_snoc (g : list GanttEntry) (e : GanttEntry) :
  lastEntry (g ++ [e]) = Some e.
Proof.
  unfold lastEntry. rewrite length_app. simpl.
  replace (List.length g + 1 - 1)%nat with (List.length g) by lia.
  rewrite nth_error_app2 by lia. rewrite Nat.sub_diag. reflexivity.
Qed.

Lemma replaceAt_snoc {A : Type} (g : list A) (e x : A) :
  replaceAt (List.length (g ++ [e]) - 1) x (g ++ [e]) = g ++ [x].
Proof.
  rewrite length_app. simpl.
  replace (List.length g + 1 - 1)%nat with (List.length g) by lia.
  induction g as [|y g IH]; simpl; [reflexivity|]. rewrite IH. reflexivity.
Qed.

Lemma snoc_view {A : Type} (l : list A) :
  l = [] \/ exists init e, l = init ++ [e].
Proof.
  induction l as [|e init _] using rev_ind; [auto|]. right. eauto.
Qed.

(** The two outcomes of [occupy]: a new entry for the tick, or the last
    entry, which bears the label, stretched to the end of the tick. *)
Lemma occupy_cases (label colour : string) (now : Z) (g : list GanttEntry) :
  (occupy label colour now g = g ++ [mkGanttEntry label now (now + 1) colour]
   /\ forall e, lastEntry g = Some e -> process e <> label)
  \/ exists init e,
       g = init ++ [e] /\ process e = label
       /\ occupy label colour now g =
          init ++ [mkGanttEntry (process e) (start e) (now + 1) (barColor e)].
Proof.
  destruct (snoc_view g) as [->|(init & e & ->)].
  - left. split; [reflexivity|]. intros e. rewrite lastEntry_nil. discriminate.
  - unfold occupy. rewrite lastEntry_snoc.
    destruct (String.eqb_spec (process e) label) as [E|E].
    + right. exists init, e. rewrite replaceAt_snoc. auto.
    + left. split; [reflexivity|].
      intros e' H. inversion H; subst. exact E.
Qed.

Lemma covers_app (lo hi : Z) (g1 g2 : list GanttEntry) :
  covers lo (g1 ++ g2) hi <-> exists mid, covers lo g1 mid /\ covers mid g2 hi.
Proof.
  revert lo. induction g1 as [|e g1 IH]; simpl; intros lo.
  - split.
    + intros H. exists lo. auto.
    + intros (mid & -> & H). exact H.
  - rewrite IH. split.
    + intros (H1 & H2 & mid & H3 & H4). exists mid. auto.
    + intros (mid & (H1 & H2 & H3) & H4). eauto.
Qed.

Lemma covers_snoc (lo hi : Z) (g : list GanttEntry) (e : GanttEntry) :
  covers lo (g ++ [e]) hi <->
  covers lo g (start e) /\ start e < end_ e /\ end_ e = hi.
Proof.
  rewrite covers_app. simpl. split.
  - intros (mid & H1 & H2 & H3 & H4). subst mid. auto.
  - intros (H1 & H2 & H3). exists (start e). auto.
Qed.

Lemma covers_le (lo hi : Z) (g : list GanttEntry) : covers lo g hi -> lo <= hi.
Proof.
  revert lo. induction g as [|e g IH]; simpl; intros lo H.
  - lia.
  - destruct H as (H1 & H2 & H3). apply IH in H3. lia.
Qed.

Lemma covers_bounds (lo hi : Z) (g : list GanttEntry) (e : GanttEntry) :
  covers lo g hi -> In e g -> lo <= start e /\ start e < end_ e /\ end_ e <= hi.
Proof.
  revert lo. induction g as [|e1 g IH]; simpl; intros lo H Hin; [contradiction|].
  destruct H as (H1 & H2 & H3). destruct Hin as [<-|Hin].
  - apply covers_le in H3. lia.
  - destruct (IH _ H3 Hin) as (B1 & B2 & B3). lia.
Qed.

Lemma covers_union (lo hi : Z) (g : list GanttEntry) :
  covers lo g hi ->
  forall x, lo <= x < hi <-> exists e, In e g /\ inEntry e x.
Proof.
  revert lo. induction g as [|e1 g IH]; simpl; intros lo H x.
  - split; [lia|]. intros (e & [] & _).
  - destruct H as (H1 & H2 & H3). pose proof (covers_le _ _ _ H3) as Hle.
    specialize (IH _ H3 x). split.
    + intros Hx. destruct (Z_lt_le_dec x (end_ e1)) as [L|L].
      * exists e1. unfold inEntry. split; [auto|lia].
      * destruct IH as [IH _]. destruct IH as (e & He & Hx'); [lia|].
        exists e. auto.
    + intros (e & [<-|He] & Hx); unfold inEntry in *.
      * lia.
      * destruct IH as [_ IH]. assert (end_ e1 <= x < hi) by (apply IH; eauto).
        lia.
Qed.

Lemma covers_disjoint (lo hi : Z) (g : list GanttEntry) :
  covers lo g hi ->
  forall i j ei ej x,
    nth_error g i = Some ei -> nth_error g j = Some ej ->
    inEntry ei x -> inEntry ej x -> i = j.
Proof.
  revert lo. induction g as [|e1 g IH]; simpl; intros lo H i j ei ej x Hi Hj Xi Xj.
  - destruct i; discriminate.
  - destruct H as (H1 & H2 & H3). unfold inEntry in *.
    destruct i as [|i], j as [|j]; simpl in *.
    + reflexivity.
    + inversion Hi; subst ei. apply nth_error_In in Hj.
      destruct (covers_bounds _ _ _ _ H3 Hj). lia.
    + inversion Hj; subst ej. apply nth_error_In in Hi.
      destruct (covers_bounds _ _ _ _ H3 Hi). lia.
    + f_equal. apply (IH _ H3 i j ei ej x); assumption.
Qed.

Lemma covers_exactCover (g : list GanttEntry) (now : Z) :
  covers 0 g now -> exactCover g now.
Proof.
  intros H. split; [apply covers_union|apply (covers_disjoint 0 now)]; exact H.
Qed.

Lemma covers_startsSorted (lo hi : Z) (g : list GanttEntry) :
  covers lo g hi -> startsSorted g.
Proof.
  unfold startsSorted. revert lo.
  induction g as [|e1 g IH]; simpl; intros lo H; [exact I|].
  destruct H as (H1 & H2 & H3). split; [|apply (IH _ H3)].
  destruct g as [|e2 g]; [exact I|]. simpl in H3. lia.
Qed.

Lemma lastEntry_cons (x y : GanttEntry) (g : list GanttEntry) :
  lastEntry (x :: y :: g) = lastEntry (y :: g).
Proof. unfold lastEntry. simpl. rewrite Nat.sub_0_r. reflexivity. Qed.

Lemma adjacent_snoc (R : GanttEntry -> GanttEntry -> Prop)
    (g : list GanttEntry) (e : GanttEntry) :
  adjacent R (g ++ [e]) <->
  adjacent R g /\ (forall l, lastEntry g = Some l -> R l e).
Proof.
  induction g as [|x g IH].
  - simpl. split; [|tauto]. intros _. split; [exact I|]. discriminate.
  - destruct g as [|y g].
    + simpl. split.
      * intros [H _]. split; [tauto|]. intros l E. inversion E; subst. exact H.
      * intros [_ H]. split; [|tauto]. apply H. reflexivity.
    + rewrite lastEntry_cons. change ((x :: y :: g) ++ [e]) with (x :: (y :: g) ++ [e]).
      change (adjacent R (x :: (y :: g) ++ [e]))
        with (R x y /\ adjacent R ((y :: g) ++ [e])).
      change (adjacent R (x :: y :: g)) with (R x y /\ adjacent R (y :: g)).
      rewrite IH. tauto.
Qed.

Lemma occupy_covers (label colour : string) (lo now : Z) (g : list GanttEntry) :
  covers lo g now -> covers lo (occupy label colour now g) (now + 1).
Proof.
  intros H.
  destruct (occupy_cases label colour now g) as [[-> _]|(init & e & -> & _ & ->)].
  - apply covers_snoc. simpl. repeat split; [exact H|lia].
  - apply covers_snoc in H. destruct H as (H1 & H2 & H3).
    apply covers_snoc. simpl. repeat split; [exact H1|lia].
Qed.

Lemma occupy_labelsAlternate (label colour : string) (now : Z)
    (g : list GanttEntry) :
  labelsAlternate g -> labelsAlternate (occupy label colour now g).
Proof.
  unfold labelsAlternate. intros H.
  destruct (occupy_cases label colour now g)
    as [[-> Hl]|(init & e & -> & _ & ->)].
  - apply adjacent_snoc. split; [exact H|]. intros l E. simpl. auto.
  - apply adjacent_snoc in H. apply adjacent_snoc. simpl. exact H.
Qed.

(** ** Processes that are due are queued *)

Lemma startVars_Fed (state : SimulationState) (processes : list Process) :
  Fed processes (currentTime state - 1) (varsOf state) ->
  Fed processes (currentTime state) (startVars state processes).
Proof.
  intros [F1 F2]. split; simpl in *; [exact F1|].
  intros p Hp Hrem Harr.
  destruct (Z.eq_dec (arrival p) (currentTime state)) as [E|E].
  - apply enqueueArrived_arrived. apply arrivedProcesses_In. repeat split; auto.
    intros Hc. specialize (F1 p Hp Hc). lia.
  - assert (Hq : In (id p) (ids (readyQueue state))) by (apply F2; auto; lia).
    unfold ids in *. apply in_map_iff in Hq. destruct Hq as (x & Ex & Hx).
    apply in_map_iff. exists x. split; [exact Ex|]. apply enqueueArrived_incl. exact Hx.
Qed.

Lemma retire_Fed (processes : list Process) (now : Z) (v : Vars) :
  NoDup (ids processes) ->
  Fed processes now v -> Fed processes now (retire processes v).
Proof.
  intros Hnd H. pose proof H as [F1 F2]. unfold retire.
  destruct (vCurrent v) as [c|]; [|exact H].
  destruct (findById processes (id c)) as [q|] eqn:Ef; simpl; [|exact H].
  destruct (Z.eqb_spec (remaining q) 0) as [Eq|Eq]; [|exact H].
  apply findById_some in Ef. destruct Ef as [Hq Eid].
  assert (Hsame : forall p, In p processes -> id p = id c -> remaining p = 0).
  { intros p Hp E. assert (p = q) by (apply (ids_inj processes); auto; congruence).
    subst p. exact Eq. }
  split; simpl.
  - intros p Hp Hin. apply in_app_or in Hin.
    destruct Hin as [Hin|[Hin|[]]]; [apply F1; assumption|].
    apply Hsame; auto.
  - intros p Hp Hrem Harr. apply withoutId_ids. split; [apply F2; assumption|].
    intros E. specialize (Hsame p Hp E). lia.
Qed.

Lemma expire_Fed (state : SimulationState) (processes : list Process)
    (algorithm : string) (now : Z) (v : Vars) :
  NoDup (ids processes) ->
  Fed processes now v -> Fed processes now (expire state processes algorithm v).
Proof.
  intros Hnd H. pose proof H as [F1 F2]. unfold expire.
  destruct (vCurrent v) as [c|]; [|exact H].
  destruct (_ && _); [|exact H].
  split; simpl; [exact F1|].
  intros p Hp Hrem Harr. specialize (F2 p Hp Hrem Harr).
  destruct (Z.eq_dec (id p) (id c)) as [E|E].
  - rewrite <- E. rewrite (findById_unique processes p Hnd Hp).
    apply Z.ltb_lt in Hrem. rewrite Hrem. rewrite ids_app.
    apply in_or_app. right. simpl. auto.
  - assert (Hw : In (id p) (ids (withoutId (id c) (vQueue v))))
      by (apply withoutId_ids; auto).
    destruct (findById processes (id c)) as [ps|]; [|exact Hw].
    destruct (0 <? remaining ps); [|exact Hw].
    rewrite ids_app. apply in_or_app. auto.
Qed.

Lemma choose_Fed (state : SimulationState) (processes : list Process)
    (algorithm : string) (quantum : Z) (now : Z) (v : Vars) :
  Fed processes now v ->
  Fed processes now (choose state processes algorithm quantum v).
Proof.
  intros H. unfold Fed.
  destruct (choose_cases state processes algorithm quantum v) as (-> & -> & _).
  exact H.
Qed.

Lemma stepVars_Fed (state : SimulationState) (processes : list Process)
    (algorithm : string) (quantum : Z) :
  NoDup (ids processes) ->
  Fed processes (currentTime state - 1) (varsOf state) ->
  Fed processes (currentTime state)
    (stepVars state processes algorithm quantum).
Proof.
  intros Hnd H. unfold stepVars.
  apply choose_Fed, expire_Fed, retire_Fed, startVars_Fed; assumption.
Qed.

(** A due process with time left makes the selection fill the slot. *)
Lemma choose_busy (state : SimulationState) (processes : list Process)
    (algorithm : string) (quantum : Z) (now : Z) (v : Vars) (p : Process) :
  NoDup (ids processes) ->
  Fed processes now v ->
  In p processes -> 0 < remaining p -> arrival p <= now ->
  vCurrent (choose state processes algorithm quantum v) <> None.
Proof.
  intros Hnd [F1 F2] Hp Hrem Harr.
  assert (Ha : availableProcesses processes v <> []).
  { specialize (F2 p Hp Hrem Harr). unfold ids in F2. apply in_map_iff in F2.
    destruct F2 as (x & Ex & Hx).
    assert (In x (availableProcesses processes v)).
    { apply availableProcesses_In. rewrite Ex.
      rewrite (findById_unique processes p Hnd Hp). simpl.
      repeat split; [exact Hx|apply Z.ltb_lt; exact Hrem|].
      intros Hc. specialize (F1 p Hp Hc). lia. }
    intros E. rewrite E in H. contradiction. }
  unfold choose. destruct (vCurrent v) as [c|] eqn:Ec.
  - destruct (preemptive algorithm); [|rewrite Ec; discriminate].
    destruct (availableProcesses processes v) as [|a l]; [congruence|].
    destruct (selectNext_some (a :: l) (currentTime state) algorithm) as [n ->];
      [discriminate|].
    match goal with |- context [if ?b then _ else _] => destruct b end;
      [rewrite Ec|simpl]; discriminate.
  - destruct (availableProcesses processes v) as [|a l]; [congruence|].
    destruct (selectNext_some (a :: l) (currentTime state) algorithm) as [n ->];
      [discriminate|].
    simpl. discriminate.
Qed.

Lemma hasUnArrived_true (state : SimulationState) (processes : list Process)
    (p : Process) :
  In p processes -> currentTime state < arrival p -> 0 < remaining p ->
  hasUnArrived state processes = true.
Proof.
  intros Hp Ha Hr. unfold hasUnArrived. apply existsb_exists. exists p.
  split; [exact Hp|]. apply andb_true_iff. split; apply Z.ltb_lt; assumption.
Qed.

Lemma allCompleted_false (processes : list Process) :
  allCompleted processes = false ->
  exists p, In p processes /\ remaining p <> 0.
Proof.
  unfold allCompleted. induction processes as [|x l IH]; simpl; [discriminate|].
  destruct (Z.eqb_spec (remaining x) 0) as [E|E]; simpl.
  - intros H. destruct (IH H) as (p & Hp & Hr). eauto.
  - intros _. eauto.
Qed.

(** ** The driver keeps the process set well formed *)

Lemma decrementRunning_ids (state : SimulationState) (processes : list Process) :
  ids (decrementRunning state processes) = ids processes.
Proof.
  unfold decrementRunning, ids. destruct (currentProcess state) as [c|]; [|reflexivity].
  rewrite map_map. apply map_ext. intros p.
  destruct (id p =? id c); reflexivity.
Qed.

Lemma decrementRunning_In (state : SimulationState) (processes : list Process)
    (p' : Process) :
  In p' (decrementRunning state processes) ->
  exists p, In p processes /\ id p' = id p /\ arrival p' = arrival p
            /\ (remaining p' = remaining p
                \/ remaining p' = Z.max 0 (remaining p - 1)).
Proof.
  unfold decrementRunning. destruct (currentProcess state) as [c|].
  - intros H. apply in_map_iff in H. destruct H as (p & <- & Hp).
    exists p. destruct (id p =? id c); simpl; auto.
  - intros H. exists p'. auto.
Qed.

Lemma decrementRunning_wellFormed (state : SimulationState)
    (processes : list Process) :
  wellFormed processes -> wellFormed (decrementRunning state processes).
Proof.
  intros [Hnd Hpos]. split; [rewrite decrementRunning_ids; exact Hnd|].
  intros p' Hp'. apply decrementRunning_In in Hp'.
  destruct Hp' as (p & Hp & _ & Ea & Er). destruct (Hpos p Hp). lia.
Qed.

Lemma decrementRunning_Fed (state : SimulationState) (processes : list Process)
    (now : Z) (v : Vars) :
  (forall p, In p processes -> 0 <= remaining p) ->
  Fed processes now v -> Fed (decrementRunning state processes) now v.
Proof.
  intros Hpos [F1 F2]. split.
  - intros p' Hp' Hc. apply decrementRunning_In in Hp'.
    destruct Hp' as (p & Hp & Ei & _ & Er). rewrite Ei in Hc.
    specialize (F1 p Hp Hc). lia.
  - intros p' Hp' Hrem Harr. apply decrementRunning_In in Hp'.
    destruct Hp' as (p & Hp & Ei & Ea & Er). rewrite Ei. apply F2; auto; lia.
Qed.

(** ** The invariant of a run *)

(** The chart after a step is the chart before it, or that chart with one
    more tick of some occupant. *)
Lemma step_chart (state : SimulationState) (processes : list Process)
    (algorithm : string) (quantum : Z) :
  let g' := ganttChart (executeSimulationStep state processes algorithm quantum) in
  (g' = ganttChart state
   /\ currentTime (executeSimulationStep state processes algorithm quantum)
      = currentTime state
   /\ allCompleted processes = true)
  \/ (g' = ganttChart state
      /\ allCompleted processes = false
      /\ vCurrent (stepVars state processes algorithm quantum) = None
      /\ hasUnArrived state processes = false)
  \/ (exists label colour,
        g' = occupy label colour (currentTime state) (ganttChart state)
        /\ currentTime (executeSimulationStep state processes algorithm quantum)
           = currentTime state + 1).
Proof.
  destruct (allCompleted processes) eqn:Eall.
  - left. rewrite step_stopped by exact Eall. simpl. auto.
  - destruct (step_running state processes algorithm quantum Eall)
      as (Et & _ & _ & _ & Eg).
    simpl. rewrite Eg, Et.
    destruct (vCurrent (stepVars state processes algorithm quantum)) as [c|].
    + right. right. eauto.
    + destruct (hasUnArrived state processes).
      * right. right. eauto.
      * right. left. auto.
Qed.

Lemma occupy_tickShape (label colour : string) (now : Z) (g : list GanttEntry) :
  covers 0 g now -> tickShape now g (occupy label colour now g).
Proof.
  intros H.
  destruct (occupy_cases label colour now g) as [[-> _]|(init & e & -> & _ & ->)].
  - right. left. eauto.
  - right. right. exists init, e. split; [reflexivity|].
    apply covers_snoc in H. destruct H as (_ & _ & ->). reflexivity.
Qed.

Lemma step_structure (state : SimulationState) (processes : list Process)
    (algorithm : string) (quantum : Z) :
  covers 0 (ganttChart state) (currentTime state) ->
  labelsAlternate (ganttChart state) ->
  let g' := ganttChart (executeSimulationStep state processes algorithm quantum) in
  startsSorted g' /\ labelsAlternate g'
  /\ tickShape (currentTime state) (ganttChart state) g'.
Proof.
  intros Hc Hl.
  destruct (step_chart state processes algorithm quantum)
    as [(E & _)|[(E & _)|(label & colour & E & _)]]; simpl; rewrite E.
  - split; [apply (covers_startsSorted _ _ _ Hc)|]. split; [exact Hl|left; reflexivity].
  - split; [apply (covers_startsSorted _ _ _ Hc)|]. split; [exact Hl|left; reflexivity].
  - split; [apply (covers_startsSorted 0 (currentTime state + 1));
            apply occupy_covers; exact Hc|].
    split; [apply occupy_labelsAlternate; exact Hl|].
    apply occupy_tickShape. exact Hc.
Qed.

Lemma step_Sound (state : SimulationState) (processes : list Process)
    (algorithm : string) (quantum : Z) :
  Sound (processes, state) ->
  Sound (processes, executeSimulationStep state processes algorithm quantum).
Proof.
  intros (Hwf & Hfed & Hcov & Halt). simpl in *.
  pose proof Hwf as [Hnd Hpos].
  destruct (allCompleted processes) eqn:Eall.
  - rewrite step_stopped by exact Eall.
    split; [exact Hwf|]. split; [exact Hfed|]. split; assumption.
  - destruct (step_running state processes algorithm quantum Eall)
      as (Et & Ec & Eq & Ed & Eg).
    pose proof (stepVars_Fed state processes algorithm quantum Hnd Hfed) as Hfed'.
    split; [exact Hwf|]. split; [|split]; simpl.
    + rewrite Et. replace (currentTime state + 1 - 1) with (currentTime state) by lia.
      destruct Hfed' as [F1 F2]. split; simpl; rewrite ?Ed, ?Eq; assumption.
    + rewrite Et, Eg.
      destruct (vCurrent (stepVars state processes algorithm quantum)) as [c|] eqn:Ev.
      * apply occupy_covers. exact Hcov.
      * destruct (allCompleted_false processes Eall) as (p & Hp & Hr).
        assert (Hrem : 0 < remaining p) by (destruct (Hpos p Hp); lia).
        destruct (Z_lt_le_dec (currentTime state) (arrival p)) as [L|L].
        -- rewrite (hasUnArrived_true state processes p Hp L Hrem).
           apply occupy_covers. exact Hcov.
        -- exfalso. unfold stepVars in Ev. revert Ev.
           apply (choose_busy state processes algorithm quantum
                    (currentTime state) _ p); auto.
           apply expire_Fed, retire_Fed, startVars_Fed; assumption.
    + destruct (step_structure state processes algorithm quantum Hcov Halt)
        as (_ & H & _). exact H.
Qed.

Lemma driverStep_Sound (algorithm : string) (quantum : Z) (w : World) :
  Sound w -> Sound (driverStep algorithm quantum w).
Proof.
  intros (Hwf & Hfed & Hcov & Halt). unfold driverStep.
  apply step_Sound. split; [|split; [|split]]; simpl.
  - apply decrementRunning_wellFormed. exact Hwf.
  - apply decrementRunning_Fed; [|exact Hfed]. intros p Hp. apply Hwf. exact Hp.
  - exact Hcov.
  - exact Halt.
Qed.

Lemma reachable_Sound (processes0 : list Process) (algorithm : string)
    (quantum : Z) (w : World) :
  wellFormed processes0 ->
  reachable processes0 algorithm quantum w -> Sound w.
Proof.
  intros Hwf H. induction H as [|w Hw IH].
  - split; [exact Hwf|]. split; [|split]; simpl.
    + split; simpl; [contradiction|].
      intros p Hp Hr Ha. destruct Hwf as [_ Hpos]. destruct (Hpos p Hp). lia.
    + reflexivity.
    + exact I.
  - apply driverStep_Sound. exact IH.
Qed.

(** ** C4: the chart covers the elapsed time *)

(** C4: for a process set of the data model (unique ids, arrival and
    remaining times not negative), in every state reachable by the driver
    protocol the entries of the chart are consecutive non-empty intervals
    from 0 to the current time: their union is exactly [0, currentTime),
    and no tick lies in two entries. *)
Theorem timeline_covers_elapsed_time (processes0 : list Process)
    (algorithm : string) (quantum : Z) (w : World) :
  wellFormed processes0 ->
  reachable processes0 algorithm quantum w ->
  covers 0 (ganttChart (snd w)) (currentTime (snd w))
  /\ exactCover (ganttChart (snd w)) (currentTime (snd w)).
Proof.
  intros Hwf H. destruct (reachable_Sound _ _ _ _ Hwf H) as (_ & _ & Hc & _).
  split; [exact Hc|apply covers_exactCover; exact Hc].
Qed.

Lemma timeline_covers_elapsed_time_witness :
  let w := driverStep "SRT" 2 (driverStep "SRT" 2 (driverStep "SRT" 2
             (srtProcesses, initialState))) in
  covers 0 (ganttChart (snd w)) (currentTime (snd w))
  /\ exactCover (ganttChart (snd w)) (currentTime (snd w)).
Proof.
  intros w.
  apply (timeline_covers_elapsed_time srtProcesses "SRT" 2 w).
  - split.
    + repeat constructor; simpl; intuition discriminate.
    + intros p [<-|[<-|[]]]; simpl; lia.
  - apply reach_step, reach_step, reach_step, reach_init.
Defined.

(** ** A run with nothing left to schedule *)

Lemma choose_none (state : SimulationState) (processes : list Process)
    (algorithm : string) (quantum : Z) (v : Vars) :
  vCurrent (choose state processes algorithm quantum v) = None ->
  vCurrent v = None /\ availableProcesses processes v = []
  /\ choose state processes algorithm quantum v = v.
Proof.
  unfold choose. destruct (vCurrent v) as [c|] eqn:Ec.
  - destruct (preemptive algorithm); [|congruence].
    destruct (availableProcesses processes v) as [|a l]; [congruence|].
    destruct (selectNext_some (a :: l) (currentTime state) algorithm) as [n ->];
      [discriminate|].
    match goal with |- context [if ?b then _ else _] => destruct b end;
      [congruence|simpl; discriminate].
  - destruct (availableProcesses processes v) as [|a l]; [auto|].
    destruct (selectNext_some (a :: l) (currentTime state) algorithm) as [n ->];
      [discriminate|].
    simpl. discriminate.
Qed.

Lemma hasUnArrived_false (state : SimulationState) (processes : list Process) :
  hasUnArrived state processes = false ->
  forall p, In p processes -> 0 < remaining p -> arrival p <= currentTime state.
Proof.
  unfold hasUnArrived. intros H p Hp Hr.
  destruct (Z_lt_le_dec (currentTime state) (arrival p)) as [L|L]; [|exact L].
  assert (E : existsb (fun p => (currentTime state <? arrival p) && (0 <? remaining p))
                processes = true).
  { apply existsb_exists. exists p. split; [exact Hp|].
    apply andb_true_iff. split; apply Z.ltb_lt; assumption. }
  congruence.
Qed.

(** The step that opens a gap leads to a frozen state. *)
Lemma gap_Frozen (state : SimulationState) (processes : list Process)
    (algorithm : string) (quantum : Z) :
  allCompleted processes = false ->
  vCurrent (stepVars state processes algorithm quantum) = None ->
  hasUnArrived state processes = false ->
  Frozen (processes, executeSimulationStep state processes algorithm quantum).
Proof.
  intros Eall Ev Eh.
  destruct (step_running state processes algorithm quantum Eall)
    as (Et & Ec & Eq & Ed & _).
  pose proof Ev as Ev'. unfold stepVars in Ev'. apply choose_none in Ev'.
  destruct Ev' as (_ & Ea & Ech).
  assert (Es : stepVars state processes algorithm quantum =
               expire state processes algorithm
                 (retire processes (startVars state processes)))
    by (unfold stepVars; exact Ech).
  unfold Frozen. simpl. split; [|split].
  - rewrite Ec. exact Ev.
  - unfold availableProcesses in *. simpl. rewrite Eq, Ed, Es. exact Ea.
  - intros p Hp Hr. rewrite Et.
    pose proof (hasUnArrived_false state processes Eh p Hp Hr). lia.
Qed.

Lemma Frozen_driverStep (algorithm : string) (quantum : Z) (w : World) :
  Frozen w ->
  ganttChart (snd (driverStep algorithm quantum w)) = ganttChart (snd w)
  /\ Frozen (driverStep algorithm quantum w).
Proof.
  destruct w as [processes state]. intros (Hcur & Hav & Hlate). simpl in *.
  unfold driverStep. simpl.
  assert (Ep : decrementRunning state processes = processes)
    by (unfold decrementRunning; rewrite Hcur; reflexivity).
  rewrite Ep.
  destruct (allCompleted processes) eqn:Eall.
  - rewrite step_stopped by exact Eall. unfold Frozen. simpl. auto.
  - assert (Ea : arrivedProcesses state processes = []).
    { destruct (arrivedProcesses state processes) as [|a l] eqn:E; [reflexivity|].
      assert (Ha : In a (arrivedProcesses state processes))
        by (rewrite E; simpl; auto).
      apply arrivedProcesses_In in Ha. destruct Ha as (Ha & Et & _ & Hr).
      specialize (Hlate a Ha Hr). lia. }
    assert (Es : stepVars state processes algorithm quantum = varsOf state).
    { unfold stepVars, startVars. rewrite Ea. simpl enqueueArrived.
      fold (varsOf state).
      assert (Er : retire processes (varsOf state) = varsOf state)
        by (unfold retire; simpl; rewrite Hcur; reflexivity).
      rewrite Er.
      assert (Ex : expire state processes algorithm (varsOf state) = varsOf state)
        by (unfold expire; simpl; rewrite Hcur; reflexivity).
      rewrite Ex. unfold choose. simpl vCurrent. rewrite Hcur, Hav. reflexivity. }
    assert (Eh : hasUnArrived state processes = false).
    { destruct (hasUnArrived state processes) eqn:E; [|reflexivity].
      unfold hasUnArrived in E. apply existsb_exists in E.
      destruct E as (p & Hp & E). apply andb_true_iff in E.
      destruct E as [E1 E2]. apply Z.ltb_lt in E1, E2.
      specialize (Hlate p Hp E2). lia. }
    destruct (step_running state processes algorithm quantum Eall)
      as (Et & Ec & Eq & Ed & Eg).
    rewrite Es in *. simpl in Ec, Eq, Ed, Eg. rewrite Hcur, Eh in Eg.
    split; [exact Eg|].
    unfold Frozen. simpl. split; [|split].
    + rewrite Ec. exact Hcur.
    + unfold availableProcesses in *. simpl in *. rewrite Eq, Ed. exact Hav.
    + intros p Hp Hr. rewrite Et. specialize (Hlate p Hp Hr). lia.
Qed.

Lemma driverStep_Steady (algorithm : string) (quantum : Z) (w : World) :
  Steady w ->
  Steady (driverStep algorithm quantum w)
  /\ tickShape (currentTime (snd w)) (ganttChart (snd w))
       (ganttChart (snd (driverStep algorithm quantum w))).
Proof.
  intros (Hs & Hl & [Hc|Hf]).
  - unfold driverStep. simpl.
    set (processes := decrementRunning (snd w) (fst w)).
    destruct (step_structure (snd w) processes algorithm quantum Hc Hl)
      as (S' & L' & T').
    split; [|exact T']. split; [exact S'|]. split; [exact L'|].
    destruct (step_chart (snd w) processes algorithm quantum)
      as [(Eg & Et & _)|[(Eg & Eall & Ev & Eh)|(label & colour & Eg & Et)]];
      simpl in *.
    + left. rewrite Eg, Et. exact Hc.
    + right. apply gap_Frozen; assumption.
    + left. rewrite Eg, Et. apply occupy_covers. exact Hc.
  - destruct (Frozen_driverStep algorithm quantum w Hf) as [Eg Hf'].
    split.
    + unfold Steady. rewrite Eg. auto.
    + rewrite Eg. left. reflexivity.
Qed.

Lemma reachable_Steady (processes0 : list Process) (algorithm : string)
    (quantum : Z) (w : World) :
  reachable processes0 algorithm quantum w -> Steady w.
Proof.
  induction 1 as [|w Hw IH].
  - unfold Steady. simpl. split; [exact I|]. split; [exact I|]. left. reflexivity.
  - apply driverStep_Steady. exact IH.
Qed.

(** ** The chart along a run of the driver *)

(** Along a run of the driver on one process set the chart has no gaps, so
    an entry that a step lengthens grows by exactly one tick. *)
Lemma driver_step_adds_one_tick (processes0 : list Process)
    (algorithm : string) (quantum : Z) (w : World) :
  reachable processes0 algorithm quantum w ->
  let g := ganttChart (snd w) in
  let g' := ganttChart (snd (driverStep algorithm quantum w)) in
  (startsSorted g /\ labelsAlternate g)
  /\ (startsSorted g' /\ labelsAlternate g')
  /\ tickShape (currentTime (snd w)) g g'.
Proof.
  intros H. apply reachable_Steady in H.
  destruct (driverStep_Steady algorithm quantum w H) as [(S' & L' & _) T'].
  destruct H as (S0 & L0 & _). simpl. auto.
Qed.

(** * Further properties of the selector *)

(** [selectNext] answers [null] on the empty list only, and what it returns
    is one of the candidates, whatever the algorithm name. *)
Theorem selectNext_null_only_when_empty (l : list Process) (now : Z)
    (algorithm : string) :
  (selectNext l now algorithm = None <-> l = [])
  /\ (forall r, selectNext l now algorithm = Some r -> In r l).
Proof.
  split; [|intros r; apply selectNext_In].
  split.
  - intros H. destruct l as [|x l]; [reflexivity|].
    destruct (selectNext_some (x :: l) now algorithm) as [r Hr];
      [discriminate|congruence].
  - intros ->. reflexivity.
Qed.

Lemma fcfs_before_total (a b : Process) :
  (fcfsCompare a b <=? 0) = true \/ (fcfsCompare b a <=? 0) = true.
Proof.
  unfold fcfsCompare. rewrite !Z.leb_le.
  destruct (Z.eqb_spec (arrival a) (arrival b)),
    (Z.eqb_spec (arrival b) (arrival a)); lia.
Qed.

Lemma fcfs_before_trans (a b c : Process) :
  (fcfsCompare a b <=? 0) = true -> (fcfsCompare b c <=? 0) = true ->
  (fcfsCompare a c <=? 0) = true.
Proof.
  unfold fcfsCompare. rewrite !Z.leb_le.
  destruct (Z.eqb_spec (arrival a) (arrival b)),
    (Z.eqb_spec (arrival b) (arrival c)),
    (Z.eqb_spec (arrival a) (arrival c)); lia.
Qed.

Lemma fcfs_leader_minimum (l : list Process) (r : Process) :
  leader (fun a b => fcfsCompare a b <=? 0) l = Some r ->
  In r l
  /\ forall c, In c l ->
       arrival r <= arrival c /\ (arrival c = arrival r -> id r <= id c).
Proof.
  intros Hr. split; [apply leader_In in Hr; exact Hr|].
  destruct (leader_first_minimum (fun a b => fcfsCompare a b <=? 0) l r)
    as [Hmin _].
  - intros a b _ _. apply fcfs_before_total.
  - intros a b c _ _ _. apply fcfs_before_trans.
  - exact Hr.
  - intros c Hc. specialize (Hmin c Hc). apply Z.leb_le in Hmin.
    unfold fcfsCompare in Hmin.
    destruct (Z.eqb_spec (arrival r) (arrival c)); lia.
Qed.

Lemma selectNext_fcfs (l : list Process) (now : Z) :
  selectNext l now "FCFS" = leader (fun a b => fcfsCompare a b <=? 0) l.
Proof.
  destruct l as [|x l]; [reflexivity|].
  unfold selectNext, sortBy. simpl String.eqb. cbv iota.
  apply hd_sort.
Qed.

(** FCFS returns a candidate with the earliest arrival and, among those
    that arrived with it, the smallest id. *)
Theorem fcfs_selects_earliest_then_smallest_id (l : list Process) (now : Z) :
  l <> [] ->
  exists r,
    selectNext l now "FCFS" = Some r
    /\ In r l
    /\ forall c, In c l ->
         arrival r <= arrival c /\ (arrival c = arrival r -> id r <= id c).
Proof.
  intros Hl. rewrite selectNext_fcfs.
  destruct (leader_some (fun a b => fcfsCompare a b <=? 0) l Hl) as [r Hr].
  exists r. split; [exact Hr|]. apply fcfs_leader_minimum. exact Hr.
Qed.

Lemma fcfs_selects_earliest_then_smallest_id_witness :
  exists r,
    selectNext twins 0 "FCFS" = Some r
    /\ In r twins
    /\ forall c, In c twins ->
         arrival r <= arrival c /\ (arrival c = arrival r -> id r <= id c).
Proof.
  apply (fcfs_selects_earliest_then_smallest_id twins 0). discriminate.
Defined.

(** With unique ids the choice of FCFS does not depend on the order of the
    candidates: two lists with the same candidates give the same process. *)
Theorem fcfs_choice_ignores_order (l l' : list Process) (now : Z) :
  NoDup (ids l) ->
  Permutation l l' ->
  selectNext l now "FCFS" = selectNext l' now "FCFS".
Proof.
  intros Hnd Hp. rewrite !selectNext_fcfs.
  destruct l as [|x l].
  - apply Permutation_nil in Hp. subst l'. reflexivity.
  - assert (Hl' : l' <> []).
    { intros ->. apply Permutation_sym, Permutation_nil in Hp. discriminate. }
    destruct (leader_some (fun a b => fcfsCompare a b <=? 0) (x :: l))
      as [r Hr]; [discriminate|].
    destruct (leader_some (fun a b => fcfsCompare a b <=? 0) l' Hl')
      as [r' Hr'].
    rewrite Hr, Hr'. f_equal.
    destruct (fcfs_leader_minimum _ _ Hr) as [Hin Hmin].
    destruct (fcfs_leader_minimum _ _ Hr') as [Hin' Hmin'].
    assert (Hin2 : In r' (x :: l))
      by (apply (Permutation_in _ (Permutation_sym Hp)); exact Hin').
    assert (Hin3 : In r l') by (apply (Permutation_in _ Hp); exact Hin).
    destruct (Hmin r' Hin2) as [A1 I1]. destruct (Hmin' r Hin3) as [A2 I2].
    apply (ids_inj (x :: l)); auto.
    assert (arrival r = arrival r') by lia.
    assert (id r <= id r') by (apply I1; lia).
    assert (id r' <= id r) by (apply I2; lia).
    lia.
Qed.

Lemma fcfs_choice_ignores_order_witness :
  selectNext srtProcesses 3 "FCFS" = selectNext (rev srtProcesses) 3 "FCFS".
Proof.
  apply (fcfs_choice_ignores_order srtProcesses (rev srtProcesses) 3).
  - repeat constructor; simpl; intuition discriminate.
  - apply Permutation_rev.
Defined.

Lemma srt_before_total (a b : Process) :
  (srtCompare a b <=? 0) = true \/ (srtCompare b a <=? 0) = true.
Proof.
  unfold srtCompare. rewrite !Z.leb_le.
  destruct (Z.eqb_spec (remaining a) (remaining b)),
    (Z.eqb_spec (remaining b) (remaining a)); lia.
Qed.

Lemma srt_before_trans (a b c : Process) :
  (srtCompare a b <=? 0) = true -> (srtCompare b c <=? 0) = true ->
  (srtCompare a c <=? 0) = true.
Proof.
  unfold srtCompare. rewrite !Z.leb_le.
  destruct (Z.eqb_spec (remaining a) (remaining b)),
    (Z.eqb_spec (remaining b) (remaining c)),
    (Z.eqb_spec (remaining a) (remaining c)); lia.
Qed.

(** SRT returns a candidate whose [remaining] field is minimal; among
    those, one with minimal arrival; among candidates equal in both, the
    one that stands first in the list.  The field read is that of the
    candidate object handed in. *)
Theorem srt_selects_first_least_remaining (l : list Process) (now : Z) :
  l <> [] ->
  exists r l1 l2,
    selectNext l now "SRT" = Some r
    /\ l = l1 ++ r :: l2
    /\ (forall c, In c l ->
          remaining r <= remaining c
          /\ (remaining c = remaining r -> arrival r <= arrival c))
    /\ (forall c, In c l1 ->
          ~ (remaining c = remaining r /\ arrival c = arrival r)).
Proof.
  intros Hl.
  destruct (leader_some (fun a b => srtCompare a b <=? 0) l Hl) as [r Hr].
  destruct (leader_first_minimum (fun a b => srtCompare a b <=? 0) l r)
    as [Hmin (l1 & l2 & Hsplit & Hfront)].
  - intros a b _ _. apply srt_before_total.
  - intros a b c _ _ _. apply srt_before_trans.
  - exact Hr.
  - exists r, l1, l2. split; [|split; [exact Hsplit|split]].
    + destruct l as [|x l']; [congruence|].
      unfold selectNext, sortBy. simpl String.eqb. cbv iota.
      rewrite hd_sort. exact Hr.
    + intros c Hc. specialize (Hmin c Hc). apply Z.leb_le in Hmin.
      unfold srtCompare in Hmin.
      destruct (Z.eqb_spec (remaining r) (remaining c)); lia.
    + intros c Hc [Eb Ea]. specialize (Hfront c Hc).
      apply Z.leb_gt in Hfront. unfold srtCompare in Hfront.
      destruct (Z.eqb_spec (remaining c) (remaining r)); lia.
Qed.

Lemma srt_selects_first_least_remaining_witness :
  exists r l1 l2,
    selectNext srtProcesses 2 "SRT" = Some r
    /\ srtProcesses = l1 ++ r :: l2
    /\ (forall c, In c srtProcesses ->
          remaining r <= remaining c
          /\ (remaining c = remaining r -> arrival r <= arrival c))
    /\ (forall c, In c l1 ->
          ~ (remaining c = remaining r /\ arrival c = arrival r)).
Proof.
  apply (srt_selects_first_least_remaining srtProcesses 2). discriminate.
Defined.

Lemma priority_before_total (a b : Process) :
  (priorityCompare a b <=? 0) = true \/ (priorityCompare b a <=? 0) = true.
Proof.
  unfold priorityCompare. rewrite !Z.leb_le.
  destruct (Z.eqb_spec (priority a) (priority b)),
    (Z.eqb_spec (priority b) (priority a)); lia.
Qed.

Lemma priority_before_trans (a b c : Process) :
  (priorityCompare a b <=? 0) = true -> (priorityCompare b c <=? 0) = true ->
  (priorityCompare a c <=? 0) = true.
Proof.
  unfold priorityCompare. rewrite !Z.leb_le.
  destruct (Z.eqb_spec (priority a) (priority b)),
    (Z.eqb_spec (priority b) (priority c)),
    (Z.eqb_spec (priority a) (priority c)); lia.
Qed.

(** Priority returns a candidate with the smallest priority value; among
    those, one with minimal arrival; among candidates equal in both, the
    one that stands first in the list. *)
Theorem priority_selects_first_most_urgent (l : list Process) (now : Z) :
  l <> [] ->
  exists r l1 l2,
    selectNext l now "Priority" = Some r
    /\ l = l1 ++ r :: l2
    /\ (forall c, In c l ->
          priority r <= priority c
          /\ (priority c = priority r -> arrival r <= arrival c))
    /\ (forall c, In c l1 ->
          ~ (priority c = priority r /\ arrival c = arrival r)).
Proof.
  intros Hl.
  destruct (leader_some (fun a b => priorityCompare a b <=? 0) l Hl) as [r Hr].
  destruct (leader_first_minimum (fun a b => priorityCompare a b <=? 0) l r)
    as [Hmin (l1 & l2 & Hsplit & Hfront)].
  - intros a b _ _. apply priority_before_total.
  - intros a b c _ _ _. apply priority_before_trans.
  - exact Hr.
  - exists r, l1, l2. split; [|split; [exact Hsplit|split]].
    + destruct l as [|x l']; [congruence|].
      unfold selectNext, sortBy. simpl String.eqb. cbv iota.
      rewrite hd_sort. exact Hr.
    + intros c Hc. specialize (Hmin c Hc). apply Z.leb_le in Hmin.
      unfold priorityCompare in Hmin.
      destruct (Z.eqb_spec (priority r) (priority c)); lia.
    + intros c Hc [Eb Ea]. specialize (Hfront c Hc).
      apply Z.leb_gt in Hfront. unfold priorityCompare in Hfront.
      destruct (Z.eqb_spec (priority c) (priority r)); lia.
Qed.

Lemma priority_selects_first_most_urgent_witness :
  exists r l1 l2,
    selectNext defaultProcesses 6 "Priority" = Some r
    /\ defaultProcesses = l1 ++ r :: l2
    /\ (forall c, In c defaultProcesses ->
          priority r <= priority c
          /\ (priority c = priority r -> arrival r <= arrival c))
    /\ (forall c, In c l1 ->
          ~ (priority c = priority r /\ arrival c = arrival r)).
Proof.
  apply (priority_selects_first_most_urgent defaultProcesses 6). discriminate.
Defined.

(** * Further properties of the step *)

Lemma retire_cases (processes : list Process) (v : Vars) :
  retire processes v = v
  \/ exists c,
       vCurrent v = Some c
       /\ remainingIsZero (findById processes (id c)) = true
       /\ retire processes v =
          mkVars None (withoutId (id c) (vQueue v)) (vCompleted v ++ [id c]) 0.
Proof.
  unfold retire. destruct (vCurrent v) as [c|]; [|auto].
  destruct (remainingIsZero (findById processes (id c))) eqn:E; [|auto].
  right. exists c. auto.
Qed.

Lemma expire_cases (state : SimulationState) (processes : list Process)
    (algorithm : string) (v : Vars) :
  vCompleted (expire state processes algorithm v) = vCompleted v
  /\ vQuantum (expire state processes algorithm v) = vQuantum v
  /\ (expire state processes algorithm v = v
      \/ exists c,
           vCurrent v = Some c
           /\ algorithm = "RR" /\ quantumRemaining state = 0
           /\ vCurrent (expire state processes algorithm v) = None
           /\ forall x, In x (withoutId (id c) (vQueue v)) ->
                In x (vQueue (expire state processes algorithm v))).
Proof.
  unfold expire. destruct (vCurrent v) as [c|] eqn:Ec; [|auto].
  destruct (String.eqb_spec algorithm "RR") as [Ea|Ea]; simpl; [|auto].
  destruct (Z.eqb_spec (quantumRemaining state) 0) as [Eq|Eq]; simpl; [|auto].
  destruct (1 <? Z.of_nat (List.length (vQueue v))); [|auto].
  simpl. repeat split. right. exists c. repeat split; auto.
  intros x Hx. destruct (findById processes (id c)) as [ps|]; [|exact Hx].
  destruct (0 <? remaining ps); [|exact Hx]. apply in_or_app. auto.
Qed.

Lemma step_running_flag (state : SimulationState) (processes : list Process)
    (algorithm : string) (quantum : Z) :
  allCompleted processes = false ->
  isRunning (executeSimulationStep state processes algorithm quantum)
  = isRunning state.
Proof.
  unfold allCompleted, executeSimulationStep. intros ->.
  destruct (vCurrent _); reflexivity.
Qed.

(** A step either finds every process complete and leaves the clock and the
    completed list alone, or moves the clock by exactly one tick, keeps the
    running flag, and adds to the completed list at most one id: that of
    the process that was current, whose entry in the process list has
    nothing left. *)
Theorem step_ticks_once_and_retires_only_current (state : SimulationState)
    (processes : list Process) (algorithm : string) (quantum : Z) :
  let state' := executeSimulationStep state processes algorithm quantum in
  (allCompleted processes = true
   /\ currentTime state' = currentTime state
   /\ completedProcesses state' = completedProcesses state)
  \/ (allCompleted processes = false
      /\ currentTime state' = currentTime state + 1
      /\ isRunning state' = isRunning state
      /\ (completedProcesses state' = completedProcesses state
          \/ exists c p,
               currentProcess state = Some c
               /\ findById processes (id c) = Some p /\ remaining p = 0
               /\ completedProcesses state' =
                  completedProcesses state ++ [id c])).
Proof.
  simpl. destruct (allCompleted processes) eqn:Eall.
  - left. rewrite step_stopped by exact Eall. simpl. auto.
  - right. split; [reflexivity|].
    destruct (step_running state processes algorithm quantum Eall)
      as (Et & _ & _ & Ed & _).
    split; [exact Et|]. split; [apply step_running_flag; exact Eall|].
    rewrite Ed. unfold stepVars.
    destruct (choose_cases state processes algorithm quantum
                (expire state processes algorithm
                   (retire processes (startVars state processes))))
      as (_ & -> & _).
    destruct (expire_cases state processes algorithm
                (retire processes (startVars state processes))) as (-> & _).
    destruct (retire_cases processes (startVars state processes))
      as [->|(c & Ec & Ez & ->)]; simpl; [auto|].
    right. simpl in Ec.
    destruct (findById processes (id c)) as [p|] eqn:Ef; [|discriminate].
    simpl in Ez. apply Z.eqb_eq in Ez. exists c, p. auto.
Qed.

(** A step never drops a waiting process: an entry of the ready queue that
    is not the entry of the current process is still in the queue after the
    step. *)
Theorem step_keeps_waiting_entries (state : SimulationState)
    (processes : list Process) (algorithm : string) (quantum : Z)
    (x : Process) :
  In x (readyQueue state) ->
  (forall c, currentProcess state = Some c -> id c <> id x) ->
  In x (readyQueue (executeSimulationStep state processes algorithm quantum)).
Proof.
  intros Hx Hc. destruct (allCompleted processes) eqn:Eall.
  - rewrite step_stopped by exact Eall. exact Hx.
  - destruct (step_running state processes algorithm quantum Eall)
      as (_ & _ & Eq & _). rewrite Eq. unfold stepVars.
    destruct (choose_cases state processes algorithm quantum
                (expire state processes algorithm
                   (retire processes (startVars state processes))))
      as (-> & _).
    assert (K1 : In x (vQueue (retire processes (startVars state processes)))
                 /\ forall c,
                      vCurrent (retire processes (startVars state processes))
                      = Some c -> id c <> id x).
    { destruct (retire_cases processes (startVars state processes))
        as [->|(c & Ec & _ & ->)]; simpl.
      - split; [apply enqueueArrived_incl; exact Hx|exact Hc].
      - split; [|discriminate]. apply withoutId_In.
        split; [apply enqueueArrived_incl; exact Hx|].
        intros E. apply (Hc c Ec). congruence. }
    destruct K1 as [K1 K2].
    destruct (expire_cases state processes algorithm
                (retire processes (startVars state processes)))
      as (_ & _ & [->|(c & Ec & _ & _ & _ & Hin)]); [exact K1|].
    apply Hin. apply withoutId_In. split; [exact K1|].
    intros E. apply (K2 c Ec). congruence.
Qed.

Lemma step_keeps_waiting_entries_witness :
  let state := mkState 3 [mkGanttEntry "P1" 0 3 "#FF6B6B"]
                 (Some (job 1 "P1" 0 5 "#FF6B6B"))
                 [job 1 "P1" 0 5 "#FF6B6B"; job 2 "P2" 2 2 "#4ECDC4"]
                 [] 0 true in
  In (job 2 "P2" 2 2 "#4ECDC4")
    (readyQueue (executeSimulationStep state srtProcesses "RR" 2)).
Proof.
  intros state.
  apply (step_keeps_waiting_entries state srtProcesses "RR" 2).
  - simpl. auto.
  - intros c E. inversion E. simpl. discriminate.
Defined.

(** No preemption outside SRT and RR: under every other algorithm name a
    current process stays current over a step, unless its entry in the
    process list has remaining 0. *)
Theorem other_algorithms_keep_current (state : SimulationState)
    (processes : list Process) (algorithm : string) (quantum : Z)
    (c : Process) :
  algorithm <> "SRT" -> algorithm <> "RR" ->
  currentProcess state = Some c ->
  (forall p, findById processes (id c) = Some p -> remaining p <> 0) ->
  currentProcess (executeSimulationStep state processes algorithm quantum)
  = Some c.
Proof.
  intros Hs Hr Hc Hlive. destruct (allCompleted processes) eqn:Eall.
  - rewrite step_stopped by exact Eall. exact Hc.
  - destruct (step_running state processes algorithm quantum Eall)
      as (_ & Ec & _). rewrite Ec. unfold stepVars.
    assert (R : retire processes (startVars state processes)
                = startVars state processes).
    { unfold retire. simpl. rewrite Hc.
      destruct (findById processes (id c)) as [p|] eqn:Ef; simpl; [|reflexivity].
      destruct (Z.eqb_spec (remaining p) 0) as [E|E]; [|reflexivity].
      exfalso. exact (Hlive p eq_refl E). }
    rewrite R.
    assert (X : expire state processes algorithm (startVars state processes)
                = startVars state processes).
    { unfold expire. simpl. rewrite Hc.
      apply String.eqb_neq in Hr. rewrite Hr. reflexivity. }
    rewrite X. unfold choose. simpl vCurrent. rewrite Hc.
    unfold preemptive. apply String.eqb_neq in Hs, Hr. rewrite Hs, Hr.
    simpl. exact Hc.
Qed.

Lemma other_algorithms_keep_current_witness :
  let state := mkState 3 [mkGanttEntry "P1" 0 3 "#FF6B6B"]
                 (Some (job 1 "P1" 0 5 "#FF6B6B"))
                 [job 1 "P1" 0 5 "#FF6B6B"; job 2 "P2" 2 2 "#4ECDC4"]
                 [] 0 true in
  currentProcess (executeSimulationStep state srtProcesses "SJF" 2)
  = Some (job 1 "P1" 0 5 "#FF6B6B").
Proof.
  intros state.
  apply (other_algorithms_keep_current state srtProcesses "SJF" 2).
  - discriminate.
  - discriminate.
  - reflexivity.
  - intros p E. inversion E. simpl. discriminate.
Defined.

(** * Properties of the reducer *)

Lemma reducer_Apart (state : SimulationState) (action : SimulationAction) :
  Apart (varsOf state) -> Apart (varsOf (simulationReducer state action)).
Proof.
  intros H. destruct action as [ps a q|ps| | |t]; simpl.
  - apply step_Apart. exact H.
  - unfold Apart. simpl. repeat split; try constructor; try tauto; discriminate.
  - exact H.
  - exact H.
  - exact H.
Qed.

Lemma dispatchAll_Apart (actions : list SimulationAction)
    (state : SimulationState) :
  Apart (varsOf state) -> Apart (varsOf (dispatchAll state actions)).
Proof.
  unfold dispatchAll. revert state.
  induction actions as [|a l IH]; simpl; intros state H; [exact H|].
  apply IH. apply reducer_Apart. exact H.
Qed.

(** Whatever actions are dispatched from the initial state, with whatever
    process lists, algorithm names and quanta in the [STEP] payloads: an id
    of the completed list is neither queued nor the id of the current
    process, no id occurs twice in the queue or in the completed list, and
    the current process is an entry of the queue. *)
Theorem reducer_keeps_roles_apart (actions : list SimulationAction) :
  let state := dispatchAll initialState actions in
  (forall i, In i (completedProcesses state) ->
     ~ In i (ids (readyQueue state))
     /\ forall c, currentProcess state = Some c -> id c <> i)
  /\ NoDup (ids (readyQueue state))
  /\ NoDup (completedProcesses state)
  /\ (forall c, currentProcess state = Some c ->
        In (id c) (ids (readyQueue state))).
Proof.
  simpl.
  assert (H : Apart (varsOf (dispatchAll initialState actions))).
  { apply dispatchAll_Apart. unfold Apart. simpl.
    repeat split; try constructor; try tauto; discriminate. }
  destruct H as (J1 & J2 & J3 & J4 & J5). simpl in *.
  repeat split; auto.
  intros c Hc E. apply (J2 c Hc). rewrite E. exact H.
Qed.

Lemma spaced_lower (lo lo' hi : Z) (g : list GanttEntry) :
  lo' <= lo -> spaced lo g hi -> spaced lo' g hi.
Proof.
  destruct g as [|e g]; simpl; intros H S; [lia|].
  destruct S as (S1 & S2 & S3). repeat split; [lia|exact S2|exact S3].
Qed.

Lemma spaced_upper (lo hi hi' : Z) (g : list GanttEntry) :
  hi <= hi' -> spaced lo g hi -> spaced lo g hi'.
Proof.
  revert lo. induction g as [|e g IH]; simpl; intros lo H S; [lia|].
  destruct S as (S1 & S2 & S3). repeat split; [exact S1|exact S2|].
  apply IH; assumption.
Qed.

Lemma spaced_le (lo hi : Z) (g : list GanttEntry) : spaced lo g hi -> lo <= hi.
Proof.
  revert lo. induction g as [|e g IH]; simpl; intros lo S; [exact S|].
  destruct S as (S1 & S2 & S3). apply IH in S3. lia.
Qed.

Lemma spaced_snoc (lo hi : Z) (g : list GanttEntry) (e : GanttEntry) :
  spaced lo (g ++ [e]) hi <->
  exists mid, spaced lo g mid /\ mid <= start e /\ start e < end_ e
              /\ end_ e <= hi.
Proof.
  revert lo. induction g as [|x g IH]; simpl; intros lo.
  - split.
    + intros (S1 & S2 & S3). exists lo. repeat split; auto; lia.
    + intros (mid & S0 & S1 & S2 & S3). repeat split; auto; lia.
  - rewrite IH. split.
    + intros (S1 & S2 & mid & S3). exists mid. tauto.
    + intros (mid & (S1 & S2 & S3) & S4). repeat split; auto.
      exists mid. tauto.
Qed.

Lemma spaced_bounds (lo hi : Z) (g : list GanttEntry) (e : GanttEntry) :
  spaced lo g hi -> In e g -> lo <= start e /\ start e < end_ e /\ end_ e <= hi.
Proof.
  revert lo. induction g as [|x g IH]; simpl; intros lo S Hin; [contradiction|].
  destruct S as (S1 & S2 & S3). destruct Hin as [<-|Hin].
  - apply spaced_le in S3. lia.
  - destruct (IH _ S3 Hin) as (B1 & B2 & B3). lia.
Qed.

Lemma spaced_disjoint (lo hi : Z) (g : list GanttEntry) :
  spaced lo g hi ->
  forall i j ei ej x,
    nth_error g i = Some ei -> nth_error g j = Some ej ->
    inEntry ei x -> inEntry ej x -> i = j.
Proof.
  revert lo. induction g as [|e1 g IH]; simpl; intros lo S i j ei ej x Hi Hj Xi Xj.
  - destruct i; discriminate.
  - destruct S as (S1 & S2 & S3). unfold inEntry in *.
    destruct i as [|i], j as [|j]; simpl in *.
    + reflexivity.
    + inversion Hi; subst ei. apply nth_error_In in Hj.
      destruct (spaced_bounds _ _ _ _ S3 Hj). lia.
    + inversion Hj; subst ej. apply nth_error_In in Hi.
      destruct (spaced_bounds _ _ _ _ S3 Hi). lia.
    + f_equal. apply (IH _ S3 i j ei ej x); assumption.
Qed.

Lemma spaced_startsSorted (lo hi : Z) (g : list GanttEntry) :
  spaced lo g hi -> startsSorted g.
Proof.
  unfold startsSorted. revert lo.
  induction g as [|e1 g IH]; simpl; intros lo S; [exact I|].
  destruct S as (S1 & S2 & S3). split; [|apply (IH _ S3)].
  destruct g as [|e2 g]; [exact I|]. simpl in S3. lia.
Qed.

Lemma occupy_spaced (label colour : string) (lo now : Z) (g : list GanttEntry) :
  spaced lo g now -> spaced lo (occupy label colour now g) (now + 1).
Proof.
  intros S.
  destruct (occupy_cases label colour now g) as [[-> _]|(init & e & -> & _ & ->)].
  - apply spaced_snoc. exists now. simpl. repeat split; [exact S|lia..].
  - apply spaced_snoc in S. destruct S as (mid & S0 & S1 & S2 & S3).
    apply spaced_snoc. exists mid. simpl. repeat split; [exact S0|lia..].
Qed.

Lemma reducer_chart (state : SimulationState) (action : SimulationAction) :
  spaced 0 (ganttChart state) (currentTime state)
  /\ labelsAlternate (ganttChart state) ->
  spaced 0 (ganttChart (simulationReducer state action))
    (currentTime (simulationReducer state action))
  /\ labelsAlternate (ganttChart (simulationReducer state action)).
Proof.
  intros [S L]. destruct action as [ps a q|ps| | |t]; simpl; auto.
  - destruct (step_chart state ps a q)
      as [(Eg & Et & _)|[(Eg & Eall & _)|(label & colour & Eg & Et)]];
      simpl in *; rewrite Eg.
    + rewrite Et. auto.
    + destruct (step_running state ps a q Eall) as (Et & _). rewrite Et.
      split; [|exact L]. apply (spaced_upper 0 (currentTime state)); [lia|exact S].
    + rewrite Et. split; [apply occupy_spaced; exact S|].
      apply occupy_labelsAlternate. exact L.
  - split; [lia|exact I].
Qed.

Lemma dispatchAll_chart (actions : list SimulationAction) :
  spaced 0 (ganttChart (dispatchAll initialState actions))
    (currentTime (dispatchAll initialState actions))
  /\ labelsAlternate (ganttChart (dispatchAll initialState actions)).
Proof.
  assert (H : forall l s,
             spaced 0 (ganttChart s) (currentTime s)
             /\ labelsAlternate (ganttChart s) ->
             spaced 0 (ganttChart (dispatchAll s l)) (currentTime (dispatchAll s l))
             /\ labelsAlternate (ganttChart (dispatchAll s l))).
  { unfold dispatchAll. induction l as [|a l IH]; simpl; intros s Hs; [exact Hs|].
    apply IH. apply reducer_chart. exact Hs. }
  apply H. simpl. split; [lia|exact I].
Qed.

(** Whatever actions are dispatched from the initial state, the chart never
    shows two occupants at once: every entry is a non-empty interval within
    [0, currentTime], no tick lies in two entries, the entries are in start
    order, and no two neighbours bear the same label. *)
Theorem reducer_chart_never_overlaps (actions : list SimulationAction) :
  let state := dispatchAll initialState actions in
  (forall e, In e (ganttChart state) ->
     0 <= start e /\ start e < end_ e /\ end_ e <= currentTime state)
  /\ (forall i j ei ej x,
        nth_error (ganttChart state) i = Some ei ->
        nth_error (ganttChart state) j = Some ej ->
        inEntry ei x -> inEntry ej x -> i = j)
  /\ startsSorted (ganttChart state)
  /\ labelsAlternate (ganttChart state).
Proof.
  simpl. destruct (dispatchAll_chart actions) as [S L].
  split; [intros e He; apply (spaced_bounds _ _ _ _ S He)|].
  split; [apply (spaced_disjoint _ _ _ S)|].
  split; [apply (spaced_startsSorted _ _ _ S)|exact L].
Qed.

Lemma step_running_quantum (state : SimulationState)
    (processes : list Process) (algorithm : string) (quantum : Z) :
  allCompleted processes = false ->
  let v := stepVars state processes algorithm quantum in
  quantumRemaining (executeSimulationStep state processes algorithm quantum) =
  match vCurrent v with
  | Some _ =>
    if ((algorithm =? "RR")%string && (0 <? vQuantum v))
    then vQuantum v - 1 else vQuantum v
  | None => vQuantum v
  end.
Proof.
  unfold allCompleted, executeSimulationStep. intros ->.
  fold (startVars state processes).
  fold (stepVars state processes algorithm quantum).
  destruct (vCurrent (stepVars state processes algorithm quantum)); reflexivity.
Qed.

Lemma step_sameSchedule (s1 s2 : SimulationState) (processes : list Process)
    (algorithm : string) (quantum : Z) :
  sameSchedule s1 s2 ->
  sameSchedule (executeSimulationStep s1 processes algorithm quantum)
    (executeSimulationStep s2 processes algorithm quantum).
Proof.
  destruct s1 as [t1 g1 c1 q1 d1 r1 f1], s2 as [t2 g2 c2 q2 d2 r2 f2].
  unfold sameSchedule. simpl. intros (-> & -> & -> & -> & -> & ->).
  destruct (allCompleted processes) eqn:Eall.
  - rewrite !step_stopped by exact Eall. simpl. repeat split.
  - assert (Ev : stepVars (mkState t2 g2 c2 q2 d2 r2 f1) processes algorithm
                   quantum
                 = stepVars (mkState t2 g2 c2 q2 d2 r2 f2) processes algorithm
                     quantum) by reflexivity.
    assert (Eh : hasUnArrived (mkState t2 g2 c2 q2 d2 r2 f1) processes
                 = hasUnArrived (mkState t2 g2 c2 q2 d2 r2 f2) processes)
      by reflexivity.
    destruct (step_running (mkState t2 g2 c2 q2 d2 r2 f1) processes algorithm
                quantum Eall) as (Et1 & Ec1 & Eq1 & Ed1 & Eg1).
    destruct (step_running (mkState t2 g2 c2 q2 d2 r2 f2) processes algorithm
                quantum Eall) as (Et2 & Ec2 & Eq2 & Ed2 & Eg2).
    pose proof (step_running_quantum (mkState t2 g2 c2 q2 d2 r2 f1) processes
                  algorithm quantum Eall) as Er1.
    pose proof (step_running_quantum (mkState t2 g2 c2 q2 d2 r2 f2) processes
                  algorithm quantum Eall) as Er2.
    simpl in Er1, Er2.
    rewrite Et1, Et2, Ec1, Ec2, Eq1, Eq2, Ed1, Ed2, Eg1, Eg2, Er1, Er2, Ev, Eh.
    repeat split.
Qed.

(** [START] and [PAUSE] do not touch the schedule: a list of actions and
    the same list without its [START] and [PAUSE] actions lead to states
    that agree on the clock, the chart, the current process, the queue, the
    completed list and the quantum counter. *)
Theorem start_and_pause_leave_schedule (actions : list SimulationAction)
    (state : SimulationState) :
  sameSchedule (dispatchAll state actions)
    (dispatchAll state (filter schedules actions)).
Proof.
  assert (H : forall l s1 s2,
             sameSchedule s1 s2 ->
             sameSchedule (dispatchAll s1 l) (dispatchAll s2 (filter schedules l))).
  { unfold dispatchAll.
    induction l as [|a l IH]; simpl; intros s1 s2 Hs; [exact Hs|].
    destruct a as [ps al q|ps| | |t]; simpl; apply IH.
    - apply step_sameSchedule. exact Hs.
    - unfold sameSchedule. simpl. repeat split.
    - exact Hs.
    - exact Hs.
    - exact Hs. }
  apply H. unfold sameSchedule. repeat split.
Qed.

(** * Properties of the process management *)

Lemma maxId_bounds (processes : list Process) :
  0 <= maxId processes /\ forall p, In p processes -> id p <= maxId processes.
Proof.
  unfold maxId. induction processes as [|x l [IH0 IH]]; simpl.
  - split; [lia|]. intros p [].
  - split; [lia|]. intros p [<-|Hp]; [lia|]. specialize (IH p Hp). lia.
Qed.

Lemma deleteProcess_In (i : Z) (processes : list Process) (p : Process) :
  In p (deleteProcess i processes) <-> In p processes /\ id p <> i.
Proof. apply withoutId_In. Qed.

Lemma deleteProcess_absent (i : Z) (processes : list Process) :
  ~ In i (ids processes) -> deleteProcess i processes = processes.
Proof.
  unfold deleteProcess, ids. induction processes as [|x l IH]; simpl; intros H;
    [reflexivity|].
  destruct (Z.eqb_spec (id x) i) as [E|E]; simpl.
  - exfalso. apply H. auto.
  - f_equal. apply IH. intros Hin. apply H. auto.
Qed.

Lemma addProcess_shape (processes : list Process) :
  exists newProcess,
    addProcess processes = processes ++ [newProcess]
    /\ id newProcess = maxId processes + 1
    /\ 1 <= id newProcess
    /\ name newProcess = processName (id newProcess)
    /\ ~ In (id newProcess) (ids processes).
Proof.
  destruct (maxId_bounds processes) as [H0 Hmax].
  eexists. split; [reflexivity|]. simpl. repeat split; try lia.
  intros Hin. unfold ids in Hin. apply in_map_iff in Hin.
  destruct Hin as (p & E & Hp). specialize (Hmax p Hp). lia.
Qed.

(** [addProcess] appends one process whose id is one more than the largest
    id in the list (1 on the empty list): the id is at least 1 and larger
    than every id of the list, so it is fresh and unique ids stay unique.
    The process is named after its id, arrives at 0 with burst and
    remaining 3, and takes its colour from the palette. *)
Theorem addProcess_appends_fresh_id (processes : list Process) :
  exists newProcess,
    addProcess processes = processes ++ [newProcess]
    /\ id newProcess = maxId processes + 1
    /\ 1 <= id newProcess
    /\ (forall p, In p processes -> id p < id newProcess)
    /\ ~ In (id newProcess) (ids processes)
    /\ name newProcess = processName (id newProcess)
    /\ arrival newProcess = 0
    /\ burst newProcess = 3 /\ remaining newProcess = 3
    /\ In (color newProcess) colors
    /\ (NoDup (ids processes) -> NoDup (ids (addProcess processes))).
Proof.
  destruct (maxId_bounds processes) as [H0 Hmax].
  assert (Hlt : forall p, In p processes -> id p < maxId processes + 1).
  { intros p Hp. specialize (Hmax p Hp). lia. }
  assert (Hfresh : ~ In (maxId processes + 1) (ids processes)).
  { intros Hin. unfold ids in Hin. apply in_map_iff in Hin.
    destruct Hin as (p & E & Hp). specialize (Hlt p Hp). lia. }
  eexists. split; [reflexivity|].
  cbn [id name arrival burst remaining color].
  split; [reflexivity|]. split; [lia|]. split; [exact Hlt|].
  split; [exact Hfresh|]. split; [reflexivity|]. split; [reflexivity|].
  split; [reflexivity|]. split; [reflexivity|]. split.
  - apply nth_In. change (List.length colors) with 7%nat.
    assert (0 <= Z.rem (maxId processes + 1) (Z.of_nat 7) < Z.of_nat 7)
      by (apply Z.rem_bound_pos_pos; lia).
    lia.
  - intros Hnd. unfold addProcess. rewrite ids_app.
    apply NoDup_snoc; assumption.
Qed.

(** Deleting the process that [addProcess] has just added gives the list
    back as it was. *)
Theorem delete_undoes_add (processes : list Process) :
  deleteProcess (maxId processes + 1) (addProcess processes) = processes.
Proof.
  destruct (maxId_bounds processes) as [_ Hmax].
  unfold addProcess, deleteProcess. rewrite filter_app. simpl.
  rewrite Z.eqb_refl. simpl. rewrite app_nil_r.
  apply (deleteProcess_absent (maxId processes + 1)).
  intros Hin. unfold ids in Hin. apply in_map_iff in Hin.
  destruct Hin as (p & E & Hp). specialize (Hmax p Hp). lia.
Qed.

(** [deleteProcess] removes every process of the given id and nothing
    else, keeps unique ids unique, and leaves the list as it is when no
    process has the id. *)
Theorem deleteProcess_removes_only_that_id (i : Z) (processes : list Process) :
  ~ In i (ids (deleteProcess i processes))
  /\ (forall p, In p (deleteProcess i processes) <-> In p processes /\ id p <> i)
  /\ (~ In i (ids processes) -> deleteProcess i processes = processes)
  /\ (NoDup (ids processes) -> NoDup (ids (deleteProcess i processes))).
Proof.
  split; [|split; [|split]].
  - intros Hin. apply withoutId_ids in Hin. tauto.
  - intros p. apply deleteProcess_In.
  - apply deleteProcess_absent.
  - apply withoutId_NoDup.
Qed.

Lemma updateProcess_absent (i : Z) (field : Field) (numValue : Z)
    (processes : list Process) :
  ~ In i (ids processes) -> updateProcess i field numValue processes = processes.
Proof.
  unfold updateProcess, ids. induction processes as [|x l IH]; simpl; intros H;
    [reflexivity|].
  destruct (Z.eqb_spec (id x) i) as [E|E].
  - exfalso. apply H. auto.
  - f_equal. apply IH. intros Hin. apply H. auto.
Qed.

Lemma updateProcess_ids (i : Z) (field : Field) (numValue : Z)
    (processes : list Process) :
  field <> idField -> ids (updateProcess i field numValue processes) = ids processes.
Proof.
  intros Hf. unfold updateProcess, ids. rewrite map_map. apply map_ext.
  intros p. destruct (id p =? i); [|reflexivity].
  destruct field; simpl; congruence.
Qed.

Lemma updateProcess_names (i : Z) (field : Field) (numValue : Z)
    (processes : list Process) :
  map name (updateProcess i field numValue processes) = map name processes.
Proof.
  unfold updateProcess. rewrite map_map. apply map_ext.
  intros p. destruct (id p =? i); reflexivity.
Qed.

(** [updateProcess] writes one numeric field of the processes with the
    given id and leaves the others as they are; an id that no process has
    changes nothing.  Writing [burst] also sets [remaining] to the new
    burst; writing any other field leaves every [remaining] as it was. *)
Theorem updateProcess_effects (i : Z) (field : Field) (numValue : Z)
    (processes : list Process) :
  List.length (updateProcess i field numValue processes) = List.length processes
  /\ (~ In i (ids processes) ->
        updateProcess i field numValue processes = processes)
  /\ (forall p, In p processes -> id p <> i ->
        In p (updateProcess i field numValue processes))
  /\ (field <> idField ->
        ids (updateProcess i field numValue processes) = ids processes)
  /\ (field = burstField ->
        forall p', In p' (updateProcess i field numValue processes) ->
          id p' = i -> burst p' = numValue /\ remaining p' = numValue)
  /\ (field <> burstField ->
        map remaining (updateProcess i field numValue processes)
        = map remaining processes).
Proof.
  split; [apply length_map|]. split; [apply updateProcess_absent|].
  split; [|split; [apply updateProcess_ids|split]].
  - intros p Hp Hne. unfold updateProcess. apply in_map_iff. exists p.
    split; [|exact Hp]. apply Z.eqb_neq in Hne. rewrite Hne. reflexivity.
  - intros -> p' Hp' Hid. unfold updateProcess in Hp'. apply in_map_iff in Hp'.
    destruct Hp' as (p & <- & Hp).
    destruct (Z.eqb_spec (id p) i) as [E|E]; simpl in *; [auto|congruence].
  - intros Hf. unfold updateProcess. rewrite map_map. apply map_ext.
    intros p. destruct (id p =? i); [|reflexivity].
    destruct field; simpl; congruence.
Qed.

Lemma processName_injective (a b : Z) :
  1 <= a -> 1 <= b -> processName a = processName b -> a = b.
Proof.
  unfold processName. intros Ha Hb E. inversion E as [E'].
  assert (Na : Z.to_int a <> Decimal.Pos Decimal.Nil
               /\ Z.to_int a <> Decimal.Neg Decimal.Nil).
  { destruct a as [|pa|pa]; simpl; try lia.
    split; [|discriminate]. intros X. inversion X as [X'].
    exact (DecimalPos.Unsigned.to_uint_nonnil pa X'). }
  assert (Nb : Z.to_int b <> Decimal.Pos Decimal.Nil
               /\ Z.to_int b <> Decimal.Neg Decimal.Nil).
  { destruct b as [|pb|pb]; simpl; try lia.
    split; [|discriminate]. intros X. inversion X as [X'].
    exact (DecimalPos.Unsigned.to_uint_nonnil pb X'). }
  apply (f_equal NilZero.int_of_string) in E'.
  rewrite !NilZero.isi in E' by tauto.
  inversion E' as [E2]. apply (f_equal Z.of_int) in E2.
  rewrite !DecimalZ.of_to in E2. exact E2.
Qed.

(** What the edits keep: unique ids, each at least 1, and the name that
    goes with the id. *)
Lemma managed_named (processes : list Process) :
  managed processes ->
  NoDup (ids processes)
  /\ forall p, In p processes -> 1 <= id p /\ name p = processName (id p).
Proof.
  induction 1 as [|ps Hm [Hnd Hn]|i ps Hm [Hnd Hn]|i n ps Hm [Hnd Hn]
                  |i n ps Hm [Hnd Hn]|i n ps Hm [Hnd Hn]].
  - split.
    + repeat constructor; simpl; intuition discriminate.
    + intros p [<-|[<-|[<-|[<-|[]]]]]; simpl; split; try lia; reflexivity.
  - destruct (addProcess_shape ps) as (np & E & Hid & H1 & Hname & Hfresh).
    rewrite E. split.
    + rewrite ids_app. simpl. apply NoDup_snoc; assumption.
    + intros p Hp. apply in_app_or in Hp. destruct Hp as [Hp|[<-|[]]]; auto.
  - split; [apply withoutId_NoDup; exact Hnd|].
    intros p Hp. apply deleteProcess_In in Hp. apply Hn. tauto.
  - split; [rewrite updateProcess_ids by discriminate; exact Hnd|].
    intros p' Hp'. unfold updateProcess in Hp'. apply in_map_iff in Hp'.
    destruct Hp' as (p & <- & Hp). specialize (Hn p Hp).
    destruct (id p =? i); simpl; exact Hn.
  - split; [rewrite updateProcess_ids by discriminate; exact Hnd|].
    intros p' Hp'. unfold updateProcess in Hp'. apply in_map_iff in Hp'.
    destruct Hp' as (p & <- & Hp). specialize (Hn p Hp).
    destruct (id p =? i); simpl; exact Hn.
  - split; [rewrite updateProcess_ids by discriminate; exact Hnd|].
    intros p' Hp'. unfold updateProcess in Hp'. apply in_map_iff in Hp'.
    destruct Hp' as (p & <- & Hp). specialize (Hn p Hp).
    destruct (id p =? i); simpl; exact Hn.
Qed.

(** Every process list obtained from the seed by the add and delete
    buttons and the arrival, burst and priority inputs has unique ids, each
    at least 1, every process named ["P"] followed by its id, and therefore
    unique names: the labels of the chart tell the processes apart. *)
Theorem managed_lists_have_unique_ids_and_names (processes : list Process) :
  managed processes ->
  NoDup (ids processes)
  /\ NoDup (map name processes)
  /\ forall p, In p processes -> 1 <= id p /\ name p = processName (id p).
Proof.
  intros H. destruct (managed_named processes H) as [Hnd Hn].
  split; [exact Hnd|]. split; [|exact Hn].
  apply NoDup_map_NoDup_ForallPairs.
  - intros a b Ha Hb E. apply (ids_inj processes); auto.
    destruct (Hn a Ha) as [A1 A2], (Hn b Hb) as [B1 B2].
    apply processName_injective; congruence.
  - apply (NoDup_map_inv id). exact Hnd.
Qed.

Lemma managed_lists_have_unique_ids_and_names_witness :
  let processes := updateProcess 2 burstField 7 (addProcess defaultProcesses) in
  NoDup (ids processes)
  /\ NoDup (map name processes)
  /\ forall p, In p processes -> 1 <= id p /\ name p = processName (id p).
Proof.
  intros processes.
  apply (managed_lists_have_unique_ids_and_names processes).
  apply managed_burst, managed_add, managed_seed.
Defined.

Lemma restoreRemaining_decrementRunning (state : SimulationState)
    (processes : list Process) :
  restoreRemaining (decrementRunning state processes)
  = restoreRemaining processes.
Proof.
  unfold restoreRemaining, decrementRunning.
  destruct (currentProcess state) as [c|]; [|reflexivity].
  rewrite map_map. apply map_ext. intros p.
  destruct (id p =? id c); reflexivity.
Qed.

Lemma restoreRemaining_fresh (processes : list Process) :
  (forall p, In p processes -> remaining p = burst p) ->
  restoreRemaining processes = processes.
Proof.
  unfold restoreRemaining. induction processes as [|x l IH]; simpl; intros H;
    [reflexivity|].
  rewrite IH by (intros p Hp; apply H; auto).
  f_equal. assert (E : remaining x = burst x) by (apply H; auto).
  destruct x as [i n a b pr r c]. simpl in *. subst r. reflexivity.
Qed.

Lemma reachable_restoreRemaining (processes0 : list Process)
    (algorithm : string) (quantum : Z) (w : World) :
  reachable processes0 algorithm quantum w ->
  restoreRemaining (fst w) = restoreRemaining processes0.
Proof.
  induction 1 as [|w Hw IH]; [reflexivity|].
  simpl. rewrite restoreRemaining_decrementRunning. exact IH.
Qed.

(** Reset undoes a run: from a process list in which every remaining time
    equals the burst, whatever the driver has done since, [resetSimulation]
    gives back that very list and the initial state. *)
Theorem reset_restores_the_start (processes0 : list Process)
    (algorithm : string) (quantum : Z) (w : World) :
  (forall p, In p processes0 -> remaining p = burst p) ->
  reachable processes0 algorithm quantum w ->
  resetSimulation w = (processes0, initialState).
Proof.
  intros Hfresh H. unfold resetSimulation. simpl.
  rewrite (reachable_restoreRemaining _ _ _ _ H).
  rewrite (restoreRemaining_fresh _ Hfresh). reflexivity.
Qed.

Lemma reset_restores_the_start_witness :
  resetSimulation
    (driverStep "SRT" 2 (driverStep "SRT" 2 (driverStep "SRT" 2
       (srtProcesses, initialState))))
  = (srtProcesses, initialState).
Proof.
  apply (reset_restores_the_start srtProcesses "SRT" 2).
  - intros p [<-|[<-|[]]]; reflexivity.
  - apply reach_step, reach_step, reach_step, reach_init.
Defined.

(** * Termination of a run *)



Lemma totalRemaining_nonneg (processes : list Process) :
  (forall p, In p processes -> 0 <= remaining p) ->
  0 <= totalRemaining processes.
Proof.
  unfold totalRemaining. induction processes as [|x l IH]; simpl; intros H; [lia|].
  assert (0 <= remaining x) by (apply H; auto).
  assert (0 <= fold_right Z.add 0 (map remaining l))
    by (apply IH; intros p Hp; apply H; auto).
  lia.
Qed.

Lemma totalRemaining_positive (processes : list Process) :
  (forall p, In p processes -> 0 <= remaining p) ->
  allCompleted processes = false ->
  1 <= totalRemaining processes.
Proof.
  unfold totalRemaining, allCompleted.
  induction processes as [|x l IH]; simpl; intros H E; [discriminate|].
  assert (0 <= remaining x) by (apply H; auto).
  assert (0 <= totalRemaining l)
    by (apply totalRemaining_nonneg; intros p Hp; apply H; auto).
  unfold totalRemaining in *.
  destruct (Z.eqb_spec (remaining x) 0) as [E0|E0]; simpl in E.
  - assert (1 <= fold_right Z.add 0 (map remaining l))
      by (apply IH; [intros p Hp; apply H; auto|exact E]).
    lia.
  - lia.
Qed.




Lemma step_clock_moves_on (state : SimulationState) (processes : list Process)
    (algorithm : string) (quantum : Z) :
  currentTime state
  <= currentTime (executeSimulationStep state processes algorithm quantum).
Proof.
  destruct (allCompleted processes) eqn:Eall.
  - rewrite step_stopped by exact Eall. simpl. lia.
  - destruct (step_running state processes algorithm quantum Eall) as (Et & _).
    rewrite Et. lia.
Qed.







(** ** The auto-run effect stops *)



















(** * Properties of the statistics *)

Lemma fold_max_spec (xs : list Z) (x : Z) :
  x <= fold_left Z.max xs x
  /\ (forall y, In y xs -> y <= fold_left Z.max xs x)
  /\ (fold_left Z.max xs x = x \/ In (fold_left Z.max xs x) xs).
Proof.
  revert x. induction xs as [|y xs IH]; simpl; intros x.
  - split; [lia|]. split; [intros y []|auto].
  - destruct (IH (Z.max x y)) as (H1 & H2 & H3). split; [lia|]. split.
    + intros z [<-|Hz]; [lia|apply H2; exact Hz].
    + destruct H3 as [H3|H3]; [|auto]. rewrite H3.
      destruct (Z.max_spec x y) as [[_ ->]|[_ ->]]; auto.
Qed.

Lemma processEntries_In (g : list GanttEntry) (p : Process) (e : GanttEntry) :
  In e (processEntries g p) <-> In e g /\ process e = name p.
Proof.
  unfold processEntries. rewrite filter_In, String.eqb_eq. tauto.
Qed.

(** The completion time of a process is the latest end among the chart
    entries that bear its name, and 0 when there is none. *)
Lemma completionOf_spec (g : list GanttEntry) (p : Process) :
  (forall e, In e g -> process e = name p -> end_ e <= completionOf g p)
  /\ ((forall e, In e g -> process e <> name p) -> completionOf g p = 0)
  /\ (completionOf g p = 0
      \/ exists e, In e g /\ process e = name p /\ end_ e = completionOf g p).
Proof.
  unfold completionOf.
  destruct (processEntries g p) as [|e0 l] eqn:E; simpl.
  - split; [|auto]. intros e He Hn.
    assert (Hin : In e (processEntries g p)) by (apply processEntries_In; auto).
    rewrite E in Hin. contradiction.
  - assert (H0 : In e0 g /\ process e0 = name p)
      by (apply processEntries_In; rewrite E; simpl; auto).
    assert (Hl : forall e, In e l -> In e g /\ process e = name p)
      by (intros e He; apply processEntries_In; rewrite E; simpl; auto).
    destruct (fold_max_spec (map end_ l) (end_ e0)) as (M1 & M2 & M3).
    split; [|split].
    + intros e He Hn.
      assert (Hin : In e (processEntries g p)) by (apply processEntries_In; auto).
      rewrite E in Hin. destruct Hin as [<-|Hin]; [exact M1|].
      apply M2. apply in_map. exact Hin.
    + intros Hno. exfalso. apply (Hno e0); tauto.
    + right. destruct M3 as [M3|M3].
      * exists e0. rewrite M3. tauto.
      * apply in_map_iff in M3. destruct M3 as (e & Ee & He).
        exists e. destruct (Hl e He). auto.
Qed.

(** The statistics are absent exactly when the chart is empty.  Otherwise
    there is one row per process, in the order of the list; its completion
    time is the latest end among the chart entries that bear the name of
    the process, and 0 for a process that has none, whose turnaround is
    then minus its arrival; turnaround is completion minus arrival, and
    waiting is turnaround minus burst. *)
Theorem statistics_rows_follow_the_chart (state : SimulationState)
    (processes : list Process) :
  (statistics state processes = None <-> ganttChart state = [])
  /\ forall rows avgTurnaround avgWaiting,
       statistics state processes = Some (rows, avgTurnaround, avgWaiting) ->
       List.length rows = List.length processes
       /\ forall k p, nth_error processes k = Some p ->
            exists r,
              nth_error rows k = Some r
              /\ statName r = name p
              /\ turnaround r = completion r - arrival p
              /\ waiting r = turnaround r - burst p
              /\ (forall e, In e (ganttChart state) -> process e = name p ->
                    end_ e <= completion r)
              /\ ((forall e, In e (ganttChart state) -> process e <> name p) ->
                    completion r = 0 /\ turnaround r = - arrival p)
              /\ (completion r = 0
                  \/ exists e, In e (ganttChart state)
                               /\ process e = name p /\ end_ e = completion r).
Proof.
  unfold statistics. split.
  - destruct (ganttChart state); split; intros H; congruence.
  - intros rows avgT avgW H.
    destruct (ganttChart state) as [|e0 g0] eqn:Eg; [discriminate|].
    inversion H as [[Hrows HavgT HavgW]]. clear H HavgT HavgW.
    split; [apply length_map|].
    intros k p Hk. exists (statRow (e0 :: g0) p).
    split; [apply map_nth_error; exact Hk|].
    destruct (completionOf_spec (e0 :: g0) p) as (C1 & C2 & C3).
    unfold statRow. cbn [statName turnaround waiting completion].
    split; [reflexivity|]. split; [reflexivity|]. split; [reflexivity|].
    split; [exact C1|]. split; [|exact C3].
    intros Hno. rewrite (C2 Hno). split; [reflexivity|lia].
Qed.

(** Whatever actions were dispatched from the initial state, no completion
    time lies in the future: for every process it is between 0 and the
    current time. *)
Theorem completion_is_never_in_the_future (actions : list SimulationAction)
    (p : Process) :
  let state := dispatchAll initialState actions in
  0 <= completionOf (ganttChart state) p <= currentTime state.
Proof.
  simpl. destruct (dispatchAll_chart actions) as [S _].
  pose proof (spaced_le _ _ _ S) as Hle.
  destruct (completionOf_spec (ganttChart (dispatchAll initialState actions)) p)
    as (_ & _ & [->|(e & He & _ & <-)]); [lia|].
  destruct (spaced_bounds _ _ _ _ S He). lia.
Qed.

(** * Conservation of work *)

Lemma retire_Every (Q : Process -> Prop) (processes : list Process) (v : Vars) :
  Every Q v -> Every Q (retire processes v).
Proof.
  intros H. pose proof H as [Hq Hc].
  destruct (retire_cases processes v) as [->|(c & _ & _ & ->)]; [exact H|].
  split; simpl; [|discriminate].
  intros x Hx. apply withoutId_In in Hx. apply Hq. tauto.
Qed.


Lemma choose_Every (Q : Process -> Prop) (state : SimulationState)
    (processes : list Process) (algorithm : string) (quantum : Z) (v : Vars) :
  Every Q v -> Every Q (choose state processes algorithm quantum v).
Proof.
  intros [Hq Hc].
  destruct (choose_cases state processes algorithm quantum v)
    as (Eq & _ & [Ec|(n & Ec & Hn)]); split; rewrite ?Eq, ?Ec; auto.
  intros c E. inversion E; subst c.
  apply availableProcesses_In in Hn. apply Hq. tauto.
Qed.








(** ** The books of an auto-run *)





(** The auto-run of two processes of five ticks each under RR: six ticks
    are charted for each, and the thirteenth firing pauses. *)
Lemma auto_run_rr_timeline :
  timelineOf (autoRun 13 "RR" 2 (started rrProcesses))
  = [("P1", 0, 6); ("P2", 6, 12)]
  /\ isRunning (snd (autoRun 12 "RR" 2 (started rrProcesses))) = true
  /\ isRunning (snd (autoRun 13 "RR" 2 (started rrProcesses))) = false.
Proof. repeat split. Qed.

(** * Round Robin with a quantum of 2 or more *)











(** * The queue holds the snapshots of the arrival *)

Lemma enqueueArrived_new (queue arrived : list Process) (x : Process) :
  In x (enqueueArrived queue arrived) ->
  In x queue \/ (In x arrived /\ ~ In (id x) (ids queue)).
Proof.
  unfold enqueueArrived. revert queue.
  induction arrived as [|p arrived IH]; simpl; intros queue H; [auto|].
  apply IH in H. destruct (find _ queue) eqn:E.
  - destruct H as [H|[H1 H2]]; auto.
  - apply find_id_none in E. destruct H as [H|[H1 H2]].
    + apply in_app_or in H. destruct H as [H|[<-|[]]]; auto.
    + right. split; [auto|]. intros Hin. apply H2. rewrite ids_app.
      apply in_or_app. auto.
Qed.

Lemma expire_other_algorithm (state : SimulationState)
    (processes : list Process) (algorithm : string) (v : Vars) :
  algorithm <> "RR" -> expire state processes algorithm v = v.
Proof.
  intros H. unfold expire. destruct (vCurrent v); [|reflexivity].
  apply String.eqb_neq in H. rewrite H. reflexivity.
Qed.

Lemma driverStep_Snapshots (processes0 : list Process) (algorithm : string)
    (quantum : Z) (w : World) :
  algorithm <> "RR" ->
  Apart (varsOf (snd w)) ->
  Snapshots processes0 w ->
  Snapshots processes0 (driverStep algorithm quantum w).
Proof.
  intros Halg Hap [Hev Hrest]. destruct w as [ps s].
  unfold driverStep, Snapshots in *. simpl in *.
  set (ps' := decrementRunning s ps).
  assert (Hrest' : forall p, In p ps' ->
            In p processes0 \/ In (id p) (ids (readyQueue s))
            \/ In (id p) (completedProcesses s)).
  { intros p' Hp'. unfold ps', decrementRunning in Hp'.
    destruct (currentProcess s) as [c|] eqn:Ec; [|apply Hrest; exact Hp'].
    apply in_map_iff in Hp'. destruct Hp' as (p & <- & Hp).
    destruct (Z.eqb_spec (id p) (id c)) as [E|E]; [|apply Hrest; exact Hp].
    right. left. simpl. rewrite E.
    destruct Hap as (_ & _ & _ & _ & J5). apply (J5 c). exact Ec. }
  destruct (allCompleted ps') eqn:Eall.
  - rewrite step_stopped by exact Eall. simpl. split; [exact Hev|exact Hrest'].
  - destruct (step_running s ps' algorithm quantum Eall)
      as (_ & Ec & Eq & Ed & _).
    assert (Hstart : Every (fun x => In x processes0) (startVars s ps')).
    { destruct Hev as [Hq Hc]. split; simpl; [|exact Hc].
      intros x Hx. apply enqueueArrived_new in Hx.
      destruct Hx as [Hx|[Hx Hnew]]; [apply Hq; exact Hx|].
      apply arrivedProcesses_In in Hx. destruct Hx as (Hx & _ & Hnc & _).
      destruct (Hrest' x Hx) as [H|[H|H]]; [exact H|contradiction..]. }
    assert (Hv : Every (fun x => In x processes0)
                   (stepVars s ps' algorithm quantum)).
    { unfold stepVars. rewrite expire_other_algorithm by exact Halg.
      apply choose_Every, retire_Every. exact Hstart. }
    split.
    + destruct Hv as [Hq Hc]. split; simpl; rewrite ?Eq, ?Ec; assumption.
    + intros p Hp. rewrite Eq, Ed. unfold stepVars.
      rewrite expire_other_algorithm by exact Halg.
      destruct (choose_cases s ps' algorithm quantum
                  (retire ps' (startVars s ps'))) as (-> & -> & _).
      destruct (Hrest' p Hp) as [H|[H|H]]; [auto|..].
      * assert (H0 : In (id p) (ids (vQueue (startVars s ps')))).
        { unfold ids in *. apply in_map_iff in H. destruct H as (x & Ex & Hx).
          apply in_map_iff. exists x. split; [exact Ex|].
          simpl. apply enqueueArrived_incl. exact Hx. }
        destruct (retire_cases ps' (startVars s ps'))
          as [->|(c & _ & _ & ->)]; [auto|]. simpl.
        destruct (Z.eq_dec (id p) (id c)) as [E|E].
        -- right. right. apply in_or_app. right. simpl. auto.
        -- right. left. apply withoutId_ids. auto.
      * right. right.
        destruct (retire_cases ps' (startVars s ps'))
          as [->|(c & _ & _ & ->)]; simpl; [exact H|].
        apply in_or_app. auto.
Qed.

Lemma reachable_Snapshots (processes0 : list Process) (algorithm : string)
    (quantum : Z) (w : World) :
  algorithm <> "RR" ->
  reachable processes0 algorithm quantum w -> Snapshots processes0 w.
Proof.
  intros Halg H. induction H as [|w Hw IH].
  - split; simpl; [split; simpl; [contradiction|discriminate]|auto].
  - apply driverStep_Snapshots; [exact Halg| |exact IH].
    apply (reachable_Apart processes0 algorithm quantum). exact Hw.
Qed.

(** Snapshots are never refreshed.  Under every algorithm name but RR, in
    every state reachable by the driver, each entry of the ready queue and
    the current process are processes of the list the run started with,
    with the remaining time they had then: the driver's decrements do not
    reach them.  What SRT compares is therefore the remaining time at the
    start of the run. *)
Theorem queue_holds_arrival_snapshots (processes0 : list Process)
    (algorithm : string) (quantum : Z) (w : World) :
  algorithm <> "RR" ->
  reachable processes0 algorithm quantum w ->
  (forall x, In x (readyQueue (snd w)) -> In x processes0)
  /\ (forall c, currentProcess (snd w) = Some c -> In c processes0).
Proof.
  intros Halg H.
  destruct (reachable_Snapshots _ _ _ _ Halg H) as [[Hq Hc] _].
  split; assumption.
Qed.

Lemma queue_holds_arrival_snapshots_witness :
  let w := driverStep "SRT" 2 (driverStep "SRT" 2 (driverStep "SRT" 2
             (srtProcesses, initialState))) in
  (forall x, In x (readyQueue (snd w)) -> In x srtProcesses)
  /\ (forall c, currentProcess (snd w) = Some c -> In c srtProcesses).
Proof.
  intros w.
  apply (queue_holds_arrival_snapshots srtProcesses "SRT" 2 w).
  - discriminate.
  - apply reach_step, reach_step, reach_step, reach_init.
Defined.

(** * The status column *)

(** The status column agrees with the process data.  For a process set of
    the data model, in every state reachable by the driver, for a process
    of the list: the label 'completed' is shown only when its remaining
    time is 0, and a process with time left whose arrival is before the
    current time is shown as running or waiting, never as not arrived. *)
Theorem status_agrees_with_process (processes0 : list Process)
    (algorithm : string) (quantum : Z) (w : World) (p : Process) :
  wellFormed processes0 ->
  reachable processes0 algorithm quantum w ->
  In p (fst w) ->
  (statusOf (snd w) p = Completed -> remaining p = 0)
  /\ (0 < remaining p -> arrival p < currentTime (snd w) ->
      statusOf (snd w) p = Executing \/ statusOf (snd w) p = Queued).
Proof.
  intros Hwf H Hp.
  destruct (reachable_Sound _ _ _ _ Hwf H) as (_ & [F1 F2] & _).
  simpl in F1, F2. unfold statusOf. split.
  - destruct (includes (completedProcesses (snd w)) (id p)) eqn:E.
    + intros _. apply includes_In in E. apply F1; assumption.
    + destruct (match currentProcess (snd w) with
                | Some c => id c =? id p
                | None => false
                end); [discriminate|].
      destruct (find _ (readyQueue (snd w))); discriminate.
  - intros Hr Ha.
    destruct (includes (completedProcesses (snd w)) (id p)) eqn:E.
    + apply includes_In in E. specialize (F1 p Hp E). lia.
    + destruct (match currentProcess (snd w) with
                | Some c => id c =? id p
                | None => false
                end); [auto|].
      destruct (find (fun q => id q =? id p) (readyQueue (snd w))) eqn:Ef;
        [auto|].
      apply find_id_none in Ef. exfalso. apply Ef. apply F2; auto. lia.
Qed.

Lemma status_agrees_with_process_witness :
  let w := driverStep "SRT" 2 (driverStep "SRT" 2 (driverStep "SRT" 2
             (srtProcesses, initialState))) in
  let p := job 2 "P2" 2 2 "#4ECDC4" in
  (statusOf (snd w) p = Completed -> remaining p = 0)
  /\ (0 < remaining p -> arrival p < currentTime (snd w) ->
      statusOf (snd w) p = Executing \/ statusOf (snd w) p = Queued).
Proof.
  intros w p.
  apply (status_agrees_with_process srtProcesses "SRT" 2 w p).
  - split.
    + repeat constructor; simpl; intuition discriminate.
    + intros q [<-|[<-|[]]]; simpl; lia.
  - apply reach_step, reach_step, reach_step, reach_init.
  - vm_compute. auto.
Defined.

(** * C9: the structure of the chart *)

Lemma occupy_stepShape (label colour : string) (lo now : Z)
    (g : list GanttEntry) :
  spaced lo g now -> stepShape now g (occupy label colour now g).
Proof.
  intros S.
  destruct (occupy_cases label colour now g) as [[-> _]|(init & e & -> & _ & ->)].
  - right. left. eauto.
  - right. right. exists init, e. split; [reflexivity|].
    apply spaced_snoc in S. destruct S as (mid & _ & _ & _ & Hend).
    split; [exact Hend|reflexivity].
Qed.

(** C9, as stated, fails.  A step sets the end of the last entry to
    [currentTime + 1], whatever its end was.  Steps are dispatched with the
    process list of the moment: after a step that charts an idle tick for a
    process still to arrive and a step with a list whose only process
    arrived before the clock, which moves the clock and leaves the chart
    alone, a step with the first list turns the entry [IDLE 0-1) into
    [IDLE 0-3): the last entry grows by two ticks. *)
Lemma idle_entry_grows_by_two_ticks :
  let state :=
    dispatchAll initialState
      [STEP [lateJob] "FCFS" 2; STEP [earlyJob] "FCFS" 2] in
  let g := ganttChart state in
  let g' := ganttChart (executeSimulationStep state [lateJob] "FCFS" 2) in
  currentTime state = 2
  /\ g = [mkGanttEntry "IDLE" 0 1 "#E5E7EB"]
  /\ g' = [mkGanttEntry "IDLE" 0 3 "#E5E7EB"]
  /\ ~ tickShape (currentTime state) g g'.
Proof.
  intros state g g'.
  assert (Eg : g = [mkGanttEntry "IDLE" 0 1 "#E5E7EB"]) by reflexivity.
  assert (Eg' : g' = [mkGanttEntry "IDLE" 0 3 "#E5E7EB"]) by reflexivity.
  split; [reflexivity|]. split; [exact Eg|]. split; [exact Eg'|].
  rewrite Eg, Eg'. intros [H|[(label & colour & H)|(init & e & H1 & H2)]].
  - discriminate.
  - discriminate.
  - destruct init as [|x init].
    + simpl in H1, H2. inversion H1; subst e. simpl in H2. discriminate.
    + destruct init; discriminate.
Qed.

(** C9, amended: in every state that the reducer reaches from the initial
    state, whatever actions and [STEP] payloads were dispatched, and for
    every step taken there with any process list, algorithm and quantum:
    the chart has its start times in non-decreasing order and no two
    consecutive entries of the same label, before the step and after it;
    and the step leaves the chart as it is, or appends one entry for
    [currentTime, currentTime + 1), or sets the end of the last entry to
    [currentTime + 1], which is later than the end it had, the entries
    before the last being the same. *)
Theorem every_step_keeps_timeline_structure (actions : list SimulationAction)
    (processes : list Process) (algorithm : string) (quantum : Z) :
  let state := dispatchAll initialState actions in
  let g := ganttChart state in
  let g' := ganttChart (executeSimulationStep state processes algorithm quantum) in
  (startsSorted g /\ labelsAlternate g)
  /\ (startsSorted g' /\ labelsAlternate g')
  /\ stepShape (currentTime state) g g'.
Proof.
  intros state g g'.
  destruct (dispatchAll_chart actions) as [S L]. fold state in S, L. fold g in S, L.
  assert (Hg : startsSorted g) by apply (spaced_startsSorted _ _ _ S).
  split; [split; [exact Hg|exact L]|].
  destruct (step_chart state processes algorithm quantum)
    as [(E & _)|[(E & _)|(label & colour & E & _)]];
    simpl in E; fold g' in E; fold g in E; rewrite E.
  - split; [split; [exact Hg|exact L]|left; reflexivity].
  - split; [split; [exact Hg|exact L]|left; reflexivity].
  - split; [split|].
    + apply (spaced_startsSorted 0 (currentTime state + 1)).
      apply occupy_spaced. exact S.
    + apply occupy_labelsAlternate. exact L.
    + apply (occupy_stepShape label colour 0). exact S.
Qed.
